(** * Baseline generator: schema, rule parser and rule engine

    A shallow embedding of [src/baseline_generator/schema.py],
    [parser.py] and [engine.py], followed by the properties of the
    parser, the engine and the schema round trip.

    Layout: the Python run-time notions the three modules rely on
    ([Py]: dynamic values, exceptions, [str] methods, [float], [sorted];
    [Re]: the fragment of [re] used by the parser tables), then the
    three modules in the order of their imports, then the theorems. *)

From Stdlib Require Import ZArith Ascii String SpecFloat Sorted Permutation.
From stdpp Require Import gmap strings list fin_maps sorting pretty.

Set Warnings "-register-all".

Open Scope Z_scope.

(* ===================================================================== *)
(** ** Python run-time model *)
(* ===================================================================== *)

Module Py.

(** Dynamic values as they come out of [json.load] / [yaml.safe_load] and
    as the dataclasses store them under [Any].  A [float] is a binary64
    number ([spec_float] with precision 53 and maximal exponent 1024); a
    [dict] keeps its insertion order and has [str] keys. *)
Inductive value : Type :=
  | VNone
  | VBool (b : bool)
  | VInt (z : Z)
  | VFloat (f : spec_float)
  | VStr (s : string)
  | VList (l : list value)
  | VDict (d : list (string * value)).

(** The exceptions that the modelled code can meet. *)
Inductive exn : Set :=
  | KeyError | ValueError | TypeError | AttributeError | OverflowError.

#[global] Instance exn_eq_dec : EqDecision exn.
Proof. solve_decision. Defined.

Inductive result (A : Type) : Type :=
  | Ret (a : A)
  | Raise (e : exn).
Arguments Ret {A} a.
Arguments Raise {A} e.

#[global] Instance result_ret : MRet result := @Ret.
#[global] Instance result_bind : MBind result :=
  λ A B f m, match m with Ret a => f a | Raise e => Raise e end.

#[global] Instance result_fmap : FMap result :=
  λ A B f m, match m with Ret a => Ret (f a) | Raise e => Raise e end.

(** [for x in xs: ys.append(f(x))] where [f] may raise. *)
Fixpoint for_each {A B : Type} (f : A → result B) (xs : list A) : result (list B) :=
  match xs with
  | [] => Ret []
  | x :: xs' => y ← f x; ys ← for_each f xs'; Ret (y :: ys)
  end.

(** [try: body  except (e1, ..., en): return dflt]. *)
Definition try_except {A : Type} (body : result A) (caught : list exn) (dflt : A)
  : result A :=
  match body with
  | Ret a => Ret a
  | Raise e =>
      if existsb (λ c, bool_decide (c = e)) caught then Ret dflt else Raise e
  end.

(** *** Text

    A text is handled as its list of characters.  The model covers ASCII
    text: [lower] folds [A-Z], and a code point from 128 on is kept as it
    is and is neither a word character, a digit nor white space. *)

Definition chars := list ascii.

Definition str (s : string) : chars := list_ascii_of_string s.
Definition unstr (t : chars) : string := string_of_list_ascii t.

Definition code (c : ascii) : nat := nat_of_ascii c.

Definition between (lo hi : nat) (c : ascii) : bool :=
  (lo <=? code c)%nat && (code c <=? hi)%nat.

Definition is_upper : ascii → bool := between 65 90.
Definition is_lower : ascii → bool := between 97 122.
Definition is_digit : ascii → bool := between 48 57.
Definition is_word (c : ascii) : bool :=
  is_upper c || is_lower c || is_digit c || Ascii.eqb c "_".
(** [str.isspace] on ASCII: space, [\t \n \v \f \r] and the separators
    [\x1c]-[\x1f]. *)
Definition is_space (c : ascii) : bool :=
  Ascii.eqb c " " || between 9 13 c || between 28 31 c.

Definition lower_char (c : ascii) : ascii :=
  if is_upper c then ascii_of_nat (code c + 32) else c.

(** [s.lower()] *)
Definition lower (s : chars) : chars := map lower_char s.

(** [s.startswith(p)] *)
Fixpoint startswith (p s : chars) : bool :=
  match p, s with
  | [], _ => true
  | _ :: _, [] => false
  | a :: p', b :: s' => Ascii.eqb a b && startswith p' s'
  end.

(** [sub in s] for two strings: [sub] occurs in [s] as a contiguous run. *)
Fixpoint contains (sub s : chars) : bool :=
  startswith sub s ||
  match s with
  | [] => false
  | _ :: s' => contains sub s'
  end.

(** [sub] occurs in [s] as a contiguous run of characters. *)
Definition occurs_in (sub s : chars) : Prop := ∃ pre post, s = pre ++ sub ++ post.

(** [s.split(sep)] for a non-empty [sep]: scan from the left, cut at every
    occurrence, resume after it.  [skip] counts the characters of a
    separator still to be passed over, [acc] is the current piece,
    reversed. *)
Fixpoint split_go (sep : chars) (skip : nat) (acc s : chars) : list chars :=
  match s with
  | [] => [rev acc]
  | c :: s' =>
      match skip with
      | S k => split_go sep k acc s'
      | O =>
          if startswith sep s
          then rev acc :: split_go sep (length sep - 1)%nat [] s'
          else split_go sep 0 (c :: acc) s'
      end
  end.

Definition split (sep s : chars) : list chars := split_go sep 0 [] s.

(** [s.split(sep, 1)]: at most one cut, at the first occurrence. *)
Fixpoint split1_go (sep acc s : chars) : list chars :=
  match s with
  | [] => [rev acc]
  | c :: s' =>
      if startswith sep s then [rev acc; drop (length sep) s]
      else split1_go sep (c :: acc) s'
  end.

Definition split1 (sep s : chars) : list chars := split1_go sep [] s.

(** [s.split()]: the maximal runs of non-space characters. *)
Fixpoint words_go (acc s : chars) : list chars :=
  match s with
  | [] => match acc with [] => [] | _ => [rev acc] end
  | c :: s' =>
      if is_space c
      then match acc with [] => words_go [] s' | _ => rev acc :: words_go [] s' end
      else words_go (c :: acc) s'
  end.

Definition words (s : chars) : list chars := words_go [] s.

(** [sep.join(parts)] *)
Fixpoint join (sep : chars) (parts : list chars) : chars :=
  match parts with
  | [] => []
  | [p] => p
  | p :: ps => p ++ sep ++ join sep ps
  end.

Fixpoint lstrip (s : chars) : chars :=
  match s with
  | c :: s' => if is_space c then lstrip s' else s
  | [] => []
  end.

(** [s.strip()] *)
Definition strip (s : chars) : chars := rev (lstrip (rev (lstrip s))).

(** *** Numbers *)

Definition digit_val (c : ascii) : Z := Z.of_nat (code c - 48).

(** The value of a run of decimal digits, most significant first. *)
Definition digits_val (ds : chars) : Z :=
  fold_left (λ acc c, 10 * acc + digit_val c) ds 0.

(** The default of [sys.get_int_max_str_digits()]. *)
Definition int_max_str_digits : nat := 4300.

(** [int(s)] where [s] is a non-empty run of decimal digits (the only
    use in the parser): [ValueError] when there are more digits, leading
    zeros included, than the limit on the conversion allows. *)
Definition int_of_digits (ds : chars) : result Z :=
  if bool_decide (int_max_str_digits < length ds)%nat
  then Raise ValueError
  else Ret (digits_val ds).

Definition f64_normalize (m e : Z) : spec_float := binary_normalize 53 1024 m e false.

(** The binary64 number nearest to [n / 10^k] (ties to even), [n >= 0]. *)
Definition f64_of_ratio (sign : bool) (n : Z) (k : Z) : spec_float :=
  match n with
  | Zpos p =>
      SFdiv 53 1024 (S754_finite sign p 0) (S754_finite false (Z.to_pos (10 ^ k)) 0)
  | _ => S754_zero sign
  end.

(** The binary64 number nearest to [n * 10^e], [n >= 0], with the sign
    [sign]. *)
Definition f64_of_decimal (sign : bool) (n e : Z) : spec_float :=
  if 0 <=? e
  then match n with
       | Zpos _ => binary_normalize 53 1024 (if sign then - (n * 10 ^ e) else n * 10 ^ e) 0 sign
       | _ => S754_zero sign
       end
  else f64_of_ratio sign n (- e).

(** [float(z)] for an [int]: the nearest binary64 number; Python raises
    [OverflowError] when it is out of range. *)
Definition float_of_int (z : Z) : result spec_float :=
  match f64_normalize z 0 with
  | S754_infinity _ => Raise OverflowError
  | f => Ret f
  end.

(** A digit part of a float literal: digits, single underscores allowed
    between two digits.  Returns the digits read and the rest. *)
Fixpoint digitpart_go (acc s : chars) : chars * chars :=
  match s with
  | c :: s' =>
      if is_digit c then digitpart_go (c :: acc) s'
      else if Ascii.eqb c "_" then
        match s' with
        | d :: _ => if is_digit d then digitpart_go acc s' else (rev acc, s)
        | [] => (rev acc, s)
        end
      else (rev acc, s)
  | [] => (rev acc, [])
  end.

Definition digitpart (s : chars) : option (chars * chars) :=
  match s with
  | c :: _ => if is_digit c then Some (digitpart_go [] s) else None
  | [] => None
  end.

Definition read_sign (s : chars) : bool * chars :=
  match s with
  | c :: s' =>
      if Ascii.eqb c "-" then (true, s')
      else if Ascii.eqb c "+" then (false, s')
      else (false, s)
  | [] => (false, [])
  end.

(** The exponent suffix: nothing, or [e]/[E], an optional sign and a digit
    part; anything else is refused. *)
Definition read_exponent (s : chars) : option Z :=
  match s with
  | [] => Some 0
  | c :: s' =>
      if Ascii.eqb (lower_char c) "e" then
        let '(neg, s'') := read_sign s' in
        match digitpart s'' with
        | Some (ds, []) => Some (if neg then - digits_val ds else digits_val ds)
        | _ => None
        end
      else None
  end.

(** The numeric forms accepted by [float(s)] once sign and surrounding
    white space are gone: [inf], [infinity], [nan] in any case, or
    [digits [. [digits]] [exponent]] or [. digits [exponent]]. *)
Definition read_float_body (sign : bool) (s : chars) : option spec_float :=
  let l := lower s in
  if bool_decide (l = str "inf") || bool_decide (l = str "infinity")
  then Some (S754_infinity sign)
  else if bool_decide (l = str "nan") then Some S754_nan
  else
    let '(ip, s1) := match digitpart s with Some r => r | None => ([], s) end in
    let '(dot, fp, s2) :=
      match s1 with
      | c :: s1' =>
          if Ascii.eqb c "." then
            match digitpart s1' with
            | Some (fp, s2) => (true, fp, s2)
            | None => (true, [], s1')
            end
          else (false, [], s1)
      | [] => (false, [], [])
      end in
    match ip, fp with
    | [], [] => None
    | _, _ =>
        match read_exponent s2 with
        | Some e =>
            Some (f64_of_decimal sign (digits_val (ip ++ fp)) (e - Z.of_nat (length fp)))
        | None => None
        end
    end.

(** The white space that [float] passes over at both ends of an ASCII
    string: space and [\t \n \v \f \r], not the separators
    [\x1c]-[\x1f] that [str.strip] also takes. *)
Definition is_float_space (c : ascii) : bool :=
  Ascii.eqb c " " || between 9 13 c.

Fixpoint lstrip_float (s : chars) : chars :=
  match s with
  | c :: s' => if is_float_space c then lstrip_float s' else s
  | [] => []
  end.

Definition strip_float (s : chars) : chars :=
  rev (lstrip_float (rev (lstrip_float s))).

(** [float(s)] for a [str]; [None] stands for [ValueError]. *)
Definition float_of_text (s : chars) : option spec_float :=
  let '(sign, body) := read_sign (strip_float s) in
  read_float_body sign body.

(** [float(v)] *)
Definition float (v : value) : result spec_float :=
  match v with
  | VBool b => Ret (if b then f64_normalize 1 0 else S754_zero false)
  | VInt z => float_of_int z
  | VFloat f => Ret f
  | VStr s =>
      match float_of_text (str s) with
      | Some f => Ret f
      | None => Raise ValueError
      end
  | VNone | VList _ | VDict _ => Raise TypeError
  end.

(** [a < b], [a <= b] on floats; a comparison with a NaN is false. *)
Definition float_lt (a b : spec_float) : bool := SFltb a b.
Definition float_le (a b : spec_float) : bool := SFleb a b.

(** *** Equality and membership *)

(** The integer behind an [int] or a [bool]. *)
Definition as_int (v : value) : option Z :=
  match v with
  | VBool b => Some (if b then 1 else 0)
  | VInt z => Some z
  | _ => None
  end.

(** An [int] equals a [float] when they denote the same number. *)
Definition int_eq_float (z : Z) (f : spec_float) : bool :=
  match f with
  | S754_zero _ => z =? 0
  | S754_finite s m e =>
      let v := if s then Z.neg m else Z.pos m in
      if 0 <=? e then z =? v * 2 ^ e else z * 2 ^ (- e) =? v
  | _ => false
  end.

(** [a == b] between numbers ([bool] is an [int]); false when one side is
    not a number. *)
Definition num_eq (a b : value) : bool :=
  match as_int a, as_int b with
  | Some x, Some y => x =? y
  | Some x, None => match b with VFloat g => int_eq_float x g | _ => false end
  | None, Some y => match a with VFloat f => int_eq_float y f | _ => false end
  | None, None =>
      match a, b with
      | VFloat f, VFloat g => SFeqb f g
      | _, _ => false
      end
  end.

Definition assoc {A : Type} (k : string) (d : list (string * A)) : option A :=
  snd <$> find (λ kv, String.eqb (fst kv) k) d.

(** [a == b].  The two sides are distinct objects (one from the building
    specification, one from the rule), so no identity shortcut applies. *)
Fixpoint py_eq (a b : value) {struct a} : bool :=
  match a, b with
  | VNone, VNone => true
  | VStr s, VStr t => String.eqb s t
  | VList l, VList m =>
      (fix go (l m : list value) : bool :=
         match l, m with
         | [], [] => true
         | x :: l', y :: m' => py_eq x y && go l' m'
         | _, _ => false
         end) l m
  | VDict d, VDict e =>
      (length d =? length e)%nat &&
      (fix go (d : list (string * value)) : bool :=
         match d with
         | [] => true
         | (k, v) :: d' =>
             match assoc k e with
             | Some w => py_eq v w
             | None => false
             end && go d'
         end) d
  | _, _ => num_eq a b
  end.

(** [x in c] *)
Definition py_in (x c : value) : result bool :=
  match c with
  | VStr t =>
      match x with
      | VStr s => Ret (contains (str s) (str t))
      | _ => Raise TypeError
      end
  | VList l => Ret (existsb (py_eq x) l)
  | VDict d =>
      match x with
      | VStr s => Ret (bool_decide (is_Some (assoc s d)))
      | VList _ | VDict _ => Raise TypeError
      | _ => Ret false
      end
  | VNone | VBool _ | VInt _ | VFloat _ => Raise TypeError
  end.

(** Truth value of an optional string or of a dict. *)
Definition truthy_opt_str (o : option string) : bool :=
  match o with
  | Some s => negb (String.eqb s "")
  | None => false
  end.

Definition truthy_dict {A : Type} (d : list (string * A)) : bool :=
  match d with [] => false | _ => true end.

(** *** [sorted(xs, key=..., reverse=True)]

    Python's sort is stable, also under [reverse=True]: elements with
    equal keys keep their order.  That determines the result, computed
    here by insertion from the right. *)
Section Sorted.
Context {A : Type} (key : A → Z).

Fixpoint insert_desc (x : A) (l : list A) : list A :=
  match l with
  | [] => [x]
  | y :: l' => if key x <? key y then y :: insert_desc x l' else x :: l
  end.

Definition sorted_desc (l : list A) : list A := foldr insert_desc [] l.

(** [x] may come before [y] in a descending order. *)
Definition key_ge (x y : A) : Prop := key y ≤ key x.
End Sorted.

End Py.

(* ===================================================================== *)
(** ** The fragment of [re] used by the parser *)
(* ===================================================================== *)

Module Re.
Import Py.

(** Pattern syntax: literal characters, classes ([\d], [\s], [[...]]),
    the word boundary [\b], sequence, alternation [|], the greedy
    [?], [*], [+], and numbered capture groups. *)
Inductive regex : Type :=
  | Eps
  | Chr (c : ascii)
  | Cls (p : ascii → bool)
  | Bnd
  | Cat (r1 r2 : regex)
  | Alt (r1 r2 : regex)
  | Opt (r : regex)
  | Star (r : regex)
  | Plus (r : regex)
  | Grp (n : nat) (r : regex).

(** A position of the matcher: the character just passed (for [\b]), the
    text still ahead, and the groups closed so far, latest first. *)
Record pos : Type := Pos {
  before : option ascii;
  ahead : chars;
  groups : list (nat * chars)
}.

Definition wordish (o : option ascii) : bool :=
  match o with Some c => is_word c | None => false end.

(** [\b]: exactly one of the two neighbours is a word character. *)
Definition at_boundary (p : pos) : bool :=
  xorb (wordish (before p)) (wordish (head (ahead p))).

(** Greedy repetition of [step]: every way to go on after one more round
    comes before stopping here.  A round must move forward, so the number
    of rounds is bounded by the length of the text ahead. *)
Fixpoint repeat_greedy (step : pos → list pos) (fuel : nat) (p : pos) : list pos :=
  match fuel with
  | O => [p]
  | S n =>
      flat_map (repeat_greedy step n)
        (filter (λ q, bool_decide (length (ahead q) < length (ahead p))%nat) (step p))
      ++ [p]
  end.

(** All the ways [r] matches at [p], in the order in which a backtracking
    matcher tries them. *)
Fixpoint run (r : regex) (p : pos) : list pos :=
  match r with
  | Eps => [p]
  | Chr c =>
      match ahead p with
      | a :: t => if Ascii.eqb a c then [Pos (Some a) t (groups p)] else []
      | [] => []
      end
  | Cls f =>
      match ahead p with
      | a :: t => if f a then [Pos (Some a) t (groups p)] else []
      | [] => []
      end
  | Bnd => if at_boundary p then [p] else []
  | Cat r1 r2 => flat_map (run r2) (run r1 p)
  | Alt r1 r2 => run r1 p ++ run r2 p
  | Opt r1 => run r1 p ++ [p]
  | Star r1 => repeat_greedy (run r1) (length (ahead p)) p
  | Plus r1 =>
      flat_map (λ q, repeat_greedy (run r1) (length (ahead q)) q) (run r1 p)
  | Grp n r1 =>
      map (λ q, Pos (before q) (ahead q)
                  ((n, take (length (ahead p) - length (ahead q)) (ahead p)) :: groups q))
          (run r1 p)
  end.

(** [re.search(r, s)]: the first way to match at the leftmost position
    where [r] matches at all. *)
Fixpoint search_from (r : regex) (prev : option ascii) (s : chars) : option pos :=
  match run r (Pos prev s []) with
  | q :: _ => Some q
  | [] =>
      match s with
      | [] => None
      | c :: s' => search_from r (Some c) s'
      end
  end.

Definition search (r : regex) (s : chars) : option pos := search_from r None s.

(** [bool(re.search(r, s))] *)
Definition found (r : regex) (s : chars) : bool :=
  match search r s with Some _ => true | None => false end.

(** [m.group(n)] for a group that took part in the match. *)
Definition group (n : nat) (m : pos) : chars :=
  match find (λ g, Nat.eqb (fst g) n) (groups m) with
  | Some g => snd g
  | None => []
  end.

(** Pattern builders. *)
Fixpoint lit (s : chars) : regex :=
  match s with
  | [] => Eps
  | [c] => Chr c
  | c :: s' => Cat (Chr c) (lit s')
  end.

Definition word (s : string) : regex := lit (str s).

Fixpoint seq (rs : list regex) : regex :=
  match rs with
  | [] => Eps
  | [r] => r
  | r :: rs' => Cat r (seq rs')
  end.

Fixpoint alt (rs : list regex) : regex :=
  match rs with
  | [] => Eps
  | [r] => r
  | r :: rs' => Alt r (alt rs')
  end.

Definition digit : regex := Cls is_digit.      (* \d *)
Definition space : regex := Cls is_space.      (* \s *)
Definition one_of (s : string) : ascii → bool :=
  λ c, existsb (Ascii.eqb c) (str s).

End Re.

(* ===================================================================== *)
(** ** schema.py *)
(* ===================================================================== *)

Module Schema.
Import Py.

(** [class ComparisonOperator(str, Enum)] *)
Inductive ComparisonOperator : Set :=
  | EQUALS | NOT_EQUALS | GREATER_THAN | LESS_THAN
  | GREATER_THAN_OR_EQUAL | LESS_THAN_OR_EQUAL | IN | NOT_IN.

(** [class LogicalOperator(str, Enum)] *)
Inductive LogicalOperator : Set := AND | OR | NOT.

#[global] Instance ComparisonOperator_eq_dec : EqDecision ComparisonOperator.
Proof. solve_decision. Defined.
#[global] Instance LogicalOperator_eq_dec : EqDecision LogicalOperator.
Proof. solve_decision. Defined.

(** An enumeration with the string value and the list of its members. *)
Class StrEnum (E : Type) := {
  enum_value : E → string;
  enum_members : list E
}.

#[global] Instance ComparisonOperator_enum : StrEnum ComparisonOperator := {|
  enum_value o :=
    match o with
    | EQUALS => "equals"
    | NOT_EQUALS => "not_equals"
    | GREATER_THAN => "greater_than"
    | LESS_THAN => "less_than"
    | GREATER_THAN_OR_EQUAL => "greater_than_or_equal"
    | LESS_THAN_OR_EQUAL => "less_than_or_equal"
    | IN => "in"
    | NOT_IN => "not_in"
    end;
  enum_members :=
    [EQUALS; NOT_EQUALS; GREATER_THAN; LESS_THAN;
     GREATER_THAN_OR_EQUAL; LESS_THAN_OR_EQUAL; IN; NOT_IN]
|}.

#[global] Instance LogicalOperator_enum : StrEnum LogicalOperator := {|
  enum_value o := match o with AND => "and" | OR => "or" | NOT => "not" end;
  enum_members := [AND; OR; NOT]
|}.

(** What an [operator] attribute holds.  The dataclasses do not check
    their fields, so beside a member of the enumeration it can be any
    other object ([to_dict] and the engine both provide for that). *)
Inductive op_field (E : Type) : Type :=
  | Member (e : E)
  | Other (v : value).
Arguments Member {E} e.
Arguments Other {E} v.

(** [op == E.X]: the enumerations derive from [str], so a member is equal
    to itself and to the string that is its value. *)
Definition op_is {E : Type} `{StrEnum E, EqDecision E} (op : op_field E) (x : E) : bool :=
  match op with
  | Member e => bool_decide (e = x)
  | Other (VStr s) => String.eqb s (enum_value x)
  | Other _ => false
  end.

(** [op.value if isinstance(op, E) else op] *)
Definition op_to_dict {E : Type} `{StrEnum E} (op : op_field E) : value :=
  match op with
  | Member e => VStr (enum_value e)
  | Other v => v
  end.

(** [E(v)]: the member whose value is [v], [ValueError] if there is none. *)
Definition enum_call (E : Type) `{StrEnum E} (v : value) : result E :=
  match v with
  | VStr s =>
      match find (λ e, String.eqb (enum_value e) s) enum_members with
      | Some e => Ret e
      | None => Raise ValueError
      end
  | _ => Raise ValueError
  end.

(** [@dataclass class Condition] *)
Record Condition : Type := mkCondition {
  cond_field : string;
  cond_operator : op_field ComparisonOperator;
  cond_value : value;
  cond_unit : option string
}.

(** [Union[Condition, ConditionGroup]]; the second constructor is
    [@dataclass class ConditionGroup] with its [operator] and
    [conditions]. *)
Inductive Conditions : Type :=
  | ACondition (c : Condition)
  | ConditionGroup (operator : op_field LogicalOperator) (conditions : list Conditions).

(** [@dataclass class Action] *)
Record Action : Type := mkAction {
  action_type : string;
  target : string;
  act_value : value;
  parameters : list (string * value)
}.

(** [@dataclass class Rule] *)
Record Rule : Type := mkRule {
  rule_id : string;
  rule_name : string;
  description : string;
  category : string;
  rule_conditions : Conditions;
  actions : list Action;
  priority : Z;
  rule_metadata : list (string * value)
}.

(** [@dataclass class RuleSchema] *)
Record RuleSchema : Type := mkRuleSchema {
  version : string;
  rules : list Rule;
  metadata : list (string * value)
}.

(** [d[k] = v] on a dict: replace in place, or append. *)
Fixpoint dict_set {A : Type} (k : string) (v : A) (d : list (string * A))
  : list (string * A) :=
  match d with
  | [] => [(k, v)]
  | (k', v') :: d' =>
      if String.eqb k' k then (k, v) :: d' else (k', v') :: dict_set k v d'
  end.

(** [Condition.to_dict] *)
Definition Condition_to_dict (self : Condition) : value :=
  let result :=
    [("field", VStr (cond_field self));
     ("operator", op_to_dict (cond_operator self));
     ("value", cond_value self)] in
  let result :=
    match cond_unit self with
    | Some u => if truthy_opt_str (Some u) then dict_set "unit" (VStr u) result else result
    | None => result
    end in
  VDict result.

(** [ConditionGroup.to_dict], together with the dispatch
    [c.to_dict()] on its members. *)
Fixpoint Conditions_to_dict (self : Conditions) : value :=
  match self with
  | ACondition c => Condition_to_dict c
  | ConditionGroup operator conditions =>
      VDict [("operator", op_to_dict operator);
             ("conditions", VList (map Conditions_to_dict conditions))]
  end.

(** [Action.to_dict] *)
Definition Action_to_dict (self : Action) : value :=
  let result :=
    [("action_type", VStr (action_type self));
     ("target", VStr (target self));
     ("value", act_value self)] in
  let result :=
    if truthy_dict (parameters self)
    then dict_set "parameters" (VDict (parameters self)) result
    else result in
  VDict result.

(** [Rule.to_dict] *)
Definition Rule_to_dict (self : Rule) : value :=
  let result :=
    [("id", VStr (rule_id self));
     ("name", VStr (rule_name self));
     ("description", VStr (description self));
     ("category", VStr (category self));
     ("conditions", Conditions_to_dict (rule_conditions self));
     ("actions", VList (map Action_to_dict (actions self)));
     ("priority", VInt (priority self))] in
  let result :=
    if truthy_dict (rule_metadata self)
    then dict_set "metadata" (VDict (rule_metadata self)) result
    else result in
  VDict result.

(** [RuleSchema.to_dict] *)
Definition to_dict (self : RuleSchema) : value :=
  let result :=
    [("version", VStr (version self));
     ("rules", VList (map Rule_to_dict (rules self)))] in
  let result :=
    if truthy_dict (metadata self)
    then dict_set "metadata" (VDict (metadata self)) result
    else result in
  VDict result.

(** *** Reading a document *)

(** [d[k]] with a string key. *)
Definition subscript (d : value) (k : string) : result value :=
  match d with
  | VDict kvs =>
      match assoc k kvs with
      | Some v => Ret v
      | None => Raise KeyError
      end
  | _ => Raise TypeError
  end.

(** [d.get(k, dflt)]; [None] stands for "the default was taken". *)
Definition get (d : value) (k : string) : result (option value) :=
  match d with
  | VDict kvs => Ret (assoc k kvs)
  | _ => Raise AttributeError
  end.

(** [for x in v] *)
Definition iterate (v : value) : result (list value) :=
  match v with
  | VList l => Ret l
  | VDict kvs => Ret (map (λ kv, VStr (fst kv)) kvs)
  | VStr s => Ret (map (λ c, VStr (String c EmptyString)) (str s))
  | _ => Raise TypeError
  end.

(** The dataclasses take whatever they are given.  The records of this
    model are typed after the annotations, so a document with a scalar of
    another type has no image: it is reported as [IllTyped], which is not
    an exception of the program. *)
Inductive outcome (A : Type) : Type :=
  | Done (a : A)
  | Failed (e : exn)
  | IllTyped.
Arguments Done {A} a.
Arguments Failed {A} e.
Arguments IllTyped {A}.

#[global] Instance outcome_ret : MRet outcome := @Done.
#[global] Instance outcome_bind : MBind outcome :=
  λ A B f m,
    match m with
    | Done a => f a
    | Failed e => Failed e
    | IllTyped => IllTyped
    end.

#[global] Instance outcome_fmap : FMap outcome :=
  λ A B f m,
    match m with
    | Done a => Done (f a)
    | Failed e => Failed e
    | IllTyped => IllTyped
    end.

Definition lift {A : Type} (r : result A) : outcome A :=
  match r with Ret a => Done a | Raise e => Failed e end.

Fixpoint for_each_o {A B : Type} (f : A → outcome B) (xs : list A) : outcome (list B) :=
  match xs with
  | [] => Done []
  | x :: xs' => y ← f x; ys ← for_each_o f xs'; Done (y :: ys)
  end.

Definition want_str (v : value) : outcome string :=
  match v with VStr s => Done s | _ => IllTyped end.
Definition want_int (v : value) : outcome Z :=
  match v with VInt z => Done z | _ => IllTyped end.
Definition want_dict (v : value) : outcome (list (string * value)) :=
  match v with VDict d => Done d | _ => IllTyped end.
Definition want_opt_str (v : value) : outcome (option string) :=
  match v with VStr s => Done (Some s) | VNone => Done None | _ => IllTyped end.

(** [RuleSchema._parse_condition] *)
Definition _parse_condition (data : value) : outcome Condition :=
  f ← lift (subscript data "field");
  o ← lift (subscript data "operator");
  o ← lift (enum_call ComparisonOperator o);
  v ← lift (subscript data "value");
  u ← lift (get data "unit");
  f ← want_str f;
  u ← want_opt_str (default VNone u);
  Done (mkCondition f (Member o) v u).

(** ["operator" in d and "conditions" in d] *)
Definition looks_like_group (d : value) : result bool :=
  a ← py_in (VStr "operator") d;
  if a : bool then py_in (VStr "conditions") d else Ret false.

(** The test made on a member of a group and on the conditions of a
    rule alike: with both keys it is parsed as a group, else as a single
    condition. *)
Definition condition_or_group (parse_group : value → outcome Conditions)
    (cond_data : value) : outcome Conditions :=
  g ← lift (looks_like_group cond_data);
  if g : bool
  then parse_group cond_data
  else ACondition <$> _parse_condition cond_data.

(** [RuleSchema._parse_condition_group].  The recursion follows the
    nesting of the document; [fuel] bounds its depth, and the callers
    give more than the nesting depth of [data], which is never used up
    because every member lies strictly deeper in the document. *)
Fixpoint _parse_condition_group (fuel : nat) (data : value) : outcome Conditions :=
  match fuel with
  | O => IllTyped
  | S fuel' =>
      cs ← lift (subscript data "conditions");
      cs ← lift (iterate cs);
      conditions ← for_each_o (condition_or_group (_parse_condition_group fuel')) cs;
      o ← lift (subscript data "operator");
      o ← lift (enum_call LogicalOperator o);
      Done (ConditionGroup (Member o) conditions)
  end.

(** Nesting depth of a document. *)
Fixpoint parse_depth (v : value) : nat :=
  match v with
  | VList l =>
      S ((fix go (l : list value) : nat :=
            match l with [] => O | x :: l' => Nat.max (parse_depth x) (go l') end) l)
  | VDict d =>
      S ((fix go (d : list (string * value)) : nat :=
            match d with [] => O | (_, x) :: d' => Nat.max (parse_depth x) (go d') end) d)
  | _ => O
  end.

Definition parse_action (action_data : value) : outcome Action :=
  t ← lift (subscript action_data "action_type");
  g ← lift (subscript action_data "target");
  v ← lift (subscript action_data "value");
  p ← lift (get action_data "parameters");
  t ← want_str t;
  g ← want_str g;
  p ← want_dict (default (VDict []) p);
  Done (mkAction t g v p).

Definition parse_rule (rule_data : value) : outcome Rule :=
  conditions_data ← lift (subscript rule_data "conditions");
  conditions ←
    condition_or_group (_parse_condition_group (S (parse_depth conditions_data)))
      conditions_data;
  acts ← lift (subscript rule_data "actions");
  acts ← lift (iterate acts);
  actions ← for_each_o parse_action acts;
  i ← lift (subscript rule_data "id");
  n ← lift (subscript rule_data "name");
  d ← lift (subscript rule_data "description");
  c ← lift (subscript rule_data "category");
  p ← lift (get rule_data "priority");
  m ← lift (get rule_data "metadata");
  i ← want_str i;
  n ← want_str n;
  d ← want_str d;
  c ← want_str c;
  p ← want_int (default (VInt 0) p);
  m ← want_dict (default (VDict []) m);
  Done (mkRule i n d c conditions actions p m).

(** [RuleSchema.from_dict] *)
Definition from_dict (data : value) : outcome RuleSchema :=
  rs ← lift (get data "rules");
  rs ← lift (iterate (default (VList []) rs));
  rules ← for_each_o parse_rule rs;
  v ← lift (subscript data "version");
  m ← lift (get data "metadata");
  v ← want_str v;
  m ← want_dict (default (VDict []) m);
  Done (mkRuleSchema v rules m).

(** *** The typed data model

    [well_typed]: every [operator] is a member of its enumeration, as the
    annotations say.  [units_kept]: no condition has the empty string as
    its unit. *)
Definition is_member {E : Type} (op : op_field E) : bool :=
  match op with Member _ => true | Other _ => false end.

Fixpoint well_typed (c : Conditions) : bool :=
  match c with
  | ACondition c => is_member (cond_operator c)
  | ConditionGroup operator conditions =>
      is_member operator && forallb well_typed conditions
  end.

Fixpoint units_kept (c : Conditions) : bool :=
  match c with
  | ACondition c => negb (bool_decide (cond_unit c = Some ""))
  | ConditionGroup _ conditions => forallb units_kept conditions
  end.

Definition schema_well_typed (s : RuleSchema) : bool :=
  forallb (λ r, well_typed (rule_conditions r)) (rules s).

Definition schema_units_kept (s : RuleSchema) : bool :=
  forallb (λ r, units_kept (rule_conditions r)) (rules s).

(** What reading back makes of a schema: a unit that is the empty string
    becomes [None]. *)
Definition normalize_condition (c : Condition) : Condition :=
  mkCondition (cond_field c) (cond_operator c) (cond_value c)
    (if truthy_opt_str (cond_unit c) then cond_unit c else None).

Fixpoint normalize_conditions (c : Conditions) : Conditions :=
  match c with
  | ACondition c => ACondition (normalize_condition c)
  | ConditionGroup operator members =>
      ConditionGroup operator (map normalize_conditions members)
  end.

Definition normalize_rule (r : Rule) : Rule :=
  mkRule (rule_id r) (rule_name r) (description r) (category r)
    (normalize_conditions (rule_conditions r)) (actions r) (priority r) (rule_metadata r).

Definition normalize (s : RuleSchema) : RuleSchema :=
  mkRuleSchema (version s) (map normalize_rule (rules s)) (metadata s).

(** The keys that [from_dict] reads in a rule document. *)
Definition rule_keys : list string :=
  ["conditions"; "actions"; "id"; "name"; "description"; "category";
   "priority"; "metadata"].

End Schema.

(* ===================================================================== *)
(** ** parser.py *)
(* ===================================================================== *)

Module Parser.
Import Py Re Schema.

(** The pattern tables are dicts written as literals, so [.items()] goes
    through them in the order of the source text.  Every table is applied
    to lower-cased text and is itself in lower case, so the flag
    [re.IGNORECASE] given with them changes nothing. *)

Definition b (r : regex) : regex := seq [Bnd; r; Bnd].      (* \b...\b *)
Fixpoint spaced (ws : list string) : regex :=              (* w1\s+w2\s+... *)
  match ws with
  | [] => Eps
  | [w] => word w
  | w :: ws' => seq [word w; Plus space; spaced ws']
  end.

(** [RuleParser.OPERATOR_PATTERNS] *)
Definition OPERATOR_PATTERNS : list (regex * ComparisonOperator) :=
  [ (* \bequals?\b|\bis\b|\b=\b *)
    (alt [b (seq [word "equal"; Opt (Chr "s")]); b (word "is"); b (word "=")],
     EQUALS);
    (* \bnot equal(s)?\b|\bis not\b|\b!=\b *)
    (alt [b (seq [word "not equal"; Opt (Grp 1 (Chr "s"))]); b (word "is not");
          b (word "!=")],
     NOT_EQUALS);
    (* \bgreater than or equal\b|\b>=\b|\bat least\b *)
    (alt [b (word "greater than or equal"); b (word ">="); b (word "at least")],
     GREATER_THAN_OR_EQUAL);
    (* \bless than or equal\b|\b<=\b|\bat most\b *)
    (alt [b (word "less than or equal"); b (word "<="); b (word "at most")],
     LESS_THAN_OR_EQUAL);
    (* \bgreater than\b|\b>\b|\bmore than\b|\bexceeds\b *)
    (alt [b (word "greater than"); b (word ">"); b (word "more than");
          b (word "exceeds")],
     GREATER_THAN);
    (* \bless than\b|\b<\b|\bbelow\b *)
    (alt [b (word "less than"); b (word "<"); b (word "below")],
     LESS_THAN) ].

(** [RuleParser.PROPERTY_PATTERNS] *)
Definition PROPERTY_PATTERNS : list (regex * string) :=
  [ (spaced ["building"; "area"], "building_area");
    (spaced ["floor"; "area"], "floor_area");
    (spaced ["climate"; "zone"], "climate_zone");
    (spaced ["building"; "type"], "building_type");
    (spaced ["number"; "of"; "stories"], "num_stories");
    (spaced ["lighting"; "power"; "density"], "lighting_power_density");
    (spaced ["window"; "to"; "wall"; "ratio"], "window_to_wall_ratio");
    (seq [Chr "u"; Opt (Chr "-"); word "factor"], "u_factor");   (* u-?factor *)
    (seq [Chr "r"; Opt (Chr "-"); word "value"], "r_value");     (* r-?value *)
    (word "shgc", "shgc");
    (word "cop", "cop");
    (word "efficiency", "efficiency") ].

(** The degree sign of the two temperature patterns (code point 176). *)
Definition degree : ascii := ascii_of_nat 176.

(** [sq\.?\s*] and [w/sq\.?\s*] followed by a unit letter group and [\.?] *)
Definition sq (pre : string) (u : string) : regex :=
  seq [word (pre +:+ "sq"); Opt (Chr "."); Star space; word u; Opt (Chr ".")].

(** [RuleParser.UNIT_PATTERNS] *)
Definition UNIT_PATTERNS : list (regex * string) :=
  [ (* sq\.?\s*ft\.?|square\s+feet? *)
    (alt [sq "" "ft"; seq [word "square"; Plus space; word "fee"; Opt (Chr "t")]],
     "sqft");
    (* sq\.?\s*m\.?|square\s+meters? *)
    (alt [sq "" "m"; seq [word "square"; Plus space; word "meter"; Opt (Chr "s")]],
     "sqm");
    (* w/sq\.?\s*ft\.?|watts?\s+per\s+square\s+foot *)
    (alt [sq "w/" "ft";
          seq [word "watt"; Opt (Chr "s"); Plus space; spaced ["per"; "square"; "foot"]]],
     "W/sqft");
    (* w/sq\.?\s*m\.?|watts?\s+per\s+square\s+meter *)
    (alt [sq "w/" "m";
          seq [word "watt"; Opt (Chr "s"); Plus space; spaced ["per"; "square"; "meter"]]],
     "W/sqm");
    (* °?f\b|fahrenheit *)
    (alt [seq [Opt (Chr degree); Chr "f"; Bnd]; word "fahrenheit"], "degF");
    (* °?c\b|celsius *)
    (alt [seq [Opt (Chr degree); Chr "c"; Bnd]; word "celsius"], "degC");
    (word "btu", "BTU");
    (* percent|% *)
    (alt [word "percent"; word "%"], "percent") ].

(** [for pattern, x in table.items(): if re.search(pattern, s): ...; break] *)
Definition first_match {A : Type} (table : list (regex * A)) (s : chars) : option A :=
  snd <$> find (λ entry, found (fst entry) s) table.

(** [\b(\d+(?:\.\d+)?)\b] *)
Definition NUMBER : regex :=
  b (Grp 1 (seq [Plus digit; Opt (seq [Chr "."; Plus digit])])).

(** The quoted-value pattern: a quote character (double or single), a
    group of one or more characters that are not quotes, and a quote
    character again. *)
Definition quote_chars : string := String (ascii_of_nat 34) "'".
Definition QUOTED : regex :=
  seq [Cls (one_of quote_chars);
       Grp 1 (Plus (Cls (λ c, negb (one_of quote_chars c))));
       Cls (one_of quote_chars)].

(** [zone\s+(\d+[a-z]?)] *)
Definition ZONE : regex :=
  seq [word "zone"; Plus space; Grp 1 (seq [Plus digit; Opt (Cls is_lower)])].

(** [(method|procedure)\s+([a-z0-9_-]+)] *)
Definition METHOD : regex :=
  seq [Grp 1 (alt [word "method"; word "procedure"]); Plus space;
       Grp 2 (Plus (Cls (λ c, is_lower c || is_digit c || one_of "_-" c)))].

(** [table\s+([a-z0-9_.-]+)] *)
Definition TABLE : regex :=
  seq [word "table"; Plus space;
       Grp 1 (Plus (Cls (λ c, is_lower c || is_digit c || one_of "_.-" c)))].

(** [float(value_str) if '.' in value_str else int(value_str)] *)
Definition number_value (value_str : chars) : result value :=
  if contains (str ".") value_str
  then VFloat <$> float (VStr (unstr value_str))
  else VInt <$> int_of_digits value_str.

(** [RuleParser._parse_single_condition] *)
Definition _parse_single_condition (text : chars) : result Condition :=
  let text_lower := lower text in
  (* Find the property *)
  let field := default "property" (first_match PROPERTY_PATTERNS text_lower) in
  (* Find the operator *)
  let operator := default EQUALS (first_match OPERATOR_PATTERNS text_lower) in
  (* Extract value (look for numbers or quoted strings) *)
  value ←
    match search NUMBER text_lower with
    | Some number_match => number_value (group 1 number_match)
    | None =>
        match search QUOTED text with
        | Some quoted_match => Ret (VStr (unstr (group 1 quoted_match)))
        | None =>
            if contains (str "office") text_lower then Ret (VStr "office")
            else if contains (str "retail") text_lower then Ret (VStr "retail")
            else if contains (str "residential") text_lower then Ret (VStr "residential")
            else match search ZONE text_lower with
                 | Some zone_match => Ret (VStr (unstr (group 1 zone_match)))
                 | None => Ret (VStr "")
                 end
        end
    end;
  (* Extract unit *)
  let unit := first_match UNIT_PATTERNS text_lower in
  Ret (mkCondition field (Member operator) value unit).

(** [RuleParser._parse_condition_group] *)
Definition _parse_condition_group (text : chars) : result Conditions :=
  let text_lower := lower text in
  let operator := if contains (str " or ") text_lower then OR else AND in
  let separator := if bool_decide (operator = AND) then str " and " else str " or " in
  let parts := split separator text_lower in
  conditions ← for_each (λ part, ACondition <$> _parse_single_condition part) parts;
  Ret (ConditionGroup (Member operator) conditions).

(** The loop of [_extract_conditions] over
    [[' then ', ' set ', ' apply ', ' use ']]: the first separator of the
    list that occurs in the text is taken, and the condition text is what
    comes before its first occurrence. *)
Definition condition_separators : list string := [" then "; " set "; " apply "; " use "].

Definition condition_text (text : chars) : chars :=
  let text_lower := lower text in
  match find (λ separator, contains (str separator) text_lower) condition_separators with
  | Some separator => default [] (head (split (str separator) text_lower))
  | None => text
  end.

(** [RuleParser._extract_conditions] *)
Definition _extract_conditions (text : chars) : result Conditions :=
  let text_lower := lower text in
  let has_and := found (b (word "and")) text_lower in
  let has_or := found (b (word "or")) text_lower in
  let condition_text := condition_text text in
  if has_and || has_or
  then _parse_condition_group condition_text
  else ACondition <$> _parse_single_condition condition_text.

(** The inner loop of [_extract_actions] over [[' then ', ' set ']]. *)
Definition action_separators : list string := [" then "; " set "].

Definition action_text (text_lower : chars) : chars :=
  match find (λ separator, contains (str separator) text_lower) action_separators with
  | Some separator => default [] (split1 (str separator) text_lower !! 1%nat)
  | None => text_lower
  end.

(** [RuleParser._extract_actions] *)
Definition _extract_actions (text : chars) : result (list Action) :=
  let text_lower := lower text in
  actions ←
    (if contains (str " then ") text_lower || contains (str " set ") text_lower
     then
       let action_text := action_text text_lower in
       let target := default "property" (first_match PROPERTY_PATTERNS action_text) in
       '(action_type, value) ←
         match search NUMBER action_text with
         | Some number_match =>
             v ← number_value (group 1 number_match); Ret ("set_value", v)
         | None =>
             if contains (str "method") action_text
                || contains (str "procedure") action_text
             then Ret ("apply_method",
                       match search METHOD action_text with
                       | Some method_match => VStr (unstr (group 2 method_match))
                       | None => VStr ""
                       end)
             else if contains (str "table") action_text
             then Ret ("reference_table",
                       match search TABLE action_text with
                       | Some table_match => VStr (unstr (group 1 table_match))
                       | None => VStr ""
                       end)
             else Ret ("set_value", VStr "")
         end;
       Ret [mkAction action_type target value []]
     else Ret []);
  (* If no actions found, create a default action *)
  match actions with
  | [] => Ret [mkAction "evaluate" "compliance" (VStr "check") []]
  | _ => Ret actions
  end.

(** [RuleParser._generate_rule_name] *)
Definition _generate_rule_name (text : chars) : chars :=
  let name := join (str " ") (take 6 (words text)) in
  if bool_decide (6 < length (words text))%nat then name ++ str "..." else name.

(** [f"rule_{n:03d}"] *)
Definition format_rule_id (n : nat) : string :=
  let d := pretty n in
  "rule_" +:+ unstr (replicate (3 - String.length d) "0"%char) +:+ d.

(** [RuleParser.parse_rule_text].  [rule_counter] is the attribute of the
    parser; it is returned updated, also when parsing raises. *)
Definition parse_rule_text (rule_counter : nat) (text : chars)
    (rule_id : option string) (category : string) : nat * result Rule :=
  let '(rule_counter, rule_id) :=
    match rule_id with
    | None => (S rule_counter, format_rule_id (S rule_counter))
    | Some i => (rule_counter, i)
    end in
  (rule_counter,
   conditions ← _extract_conditions text;
   actions ← _extract_actions text;
   let name := _generate_rule_name text in
   let description := strip text in
   Ret (mkRule rule_id (unstr name) (unstr description) category conditions actions 0 [])).

(** *** The split as the specification words it

    [first_cut sep s]: what stands before and after the first occurrence
    of [sep] in [s]. *)
Fixpoint first_cut (sep s : chars) : option (chars * chars) :=
  if startswith sep s then Some ([], drop (length sep) s)
  else match s with
       | [] => None
       | c :: s' => prod_map (cons c) id <$> first_cut sep s'
       end.

(** The cut at the separator token that occurs earliest in the text,
    among the four of [condition_separators]; the first of the list wins
    a tie. *)
Definition earliest_cut (text_lower : chars) : option (chars * chars) :=
  foldr (λ separator best,
           match first_cut (str separator) text_lower, best with
           | Some (pre, post), Some (pre', post') =>
               if bool_decide (length pre ≤ length pre')%nat
               then Some (pre, post) else best
           | Some cut, None => Some cut
           | None, _ => best
           end) None condition_separators.

(** The fallback action of [_extract_actions]. *)
Definition fallback_action : Action := mkAction "evaluate" "compliance" (VStr "check") [].

(** [RuleParser.parse_rules_from_text].  [rule_counter] is the attribute of
    the parser, returned updated; [except Exception] catches whatever
    [parse_rule_text] raises. *)
Definition newline : chars := [ascii_of_nat 10].

Definition parse_rules_step (category : string) (state : nat * list Rule) (line : chars)
  : nat * list Rule :=
  let '(rule_counter, rules) := state in
  let line := strip line in
  (* Skip empty lines and comments *)
  if negb (bool_decide (line = [])) && negb (startswith (str "#") line) then
    match parse_rule_text rule_counter line None category with
    | (rule_counter, Ret rule) => (rule_counter, rules ++ [rule])
    | (rule_counter, Raise _) => (rule_counter, rules)
    end
  else (rule_counter, rules).

Definition paragraphs_or_lines (text : chars) : list chars :=
  (* Split by double newlines (paragraphs) or single newlines *)
  let lines := split (newline ++ newline) (strip text) in
  if bool_decide (length lines = 1%nat) then split newline (strip text) else lines.

Definition parse_rules_from_text (rule_counter : nat) (text : chars) (category : string)
  : nat * list Rule :=
  foldl (parse_rules_step category) (rule_counter, []) (paragraphs_or_lines text).

(** The pieces of a text that [parse_rules_from_text] hands to
    [parse_rule_text]: stripped, not empty, not starting with [#]. *)
Definition rule_lines (text : chars) : list chars :=
  filter (λ line, line ≠ [] ∧ startswith (str "#") line = false)
         (map strip (paragraphs_or_lines text)).

(** The shape of what the parser builds from a condition text. *)
Definition table_operator (op : op_field ComparisonOperator) : Prop :=
  ∃ o, op = Member o ∧ (o = EQUALS ∨ o ∈ map snd OPERATOR_PATTERNS).

Definition parsed_condition (c : Condition) : Prop :=
  (cond_field c = "property" ∨ cond_field c ∈ map snd PROPERTY_PATTERNS) ∧
  table_operator (cond_operator c) ∧
  (cond_unit c = None ∨ ∃ u, cond_unit c = Some u ∧ u ∈ map snd UNIT_PATTERNS) ∧
  ((∃ z, cond_value c = VInt z) ∨ (∃ x, cond_value c = VFloat x) ∨
   (∃ t, cond_value c = VStr t)).

Definition parsed_conditions (c : Conditions) : Prop :=
  match c with
  | ACondition c => parsed_condition c
  | ConditionGroup operator members =>
      (operator = Member AND ∨ operator = Member OR) ∧
      members ≠ [] ∧
      Forall (λ m, ∃ c, m = ACondition c ∧ parsed_condition c) members
  end.

(** The number written in a rule id: the decimal digits after [rule_]. *)
Definition rule_id_number (id : string) : Z := digits_val (drop 5 (str id)).

(** What a call gave, if it returned: [try: ... except Exception: continue]
    keeps nothing of a call that raised. *)
Definition returned {A : Type} (r : result A) : option A :=
  match r with Ret a => Some a | Raise _ => None end.

(** The rules that the candidate lines give when the counter stands at
    [rule_counter] before the first of them: the line at index [i] is
    parsed with the counter at [rule_counter + i]. *)
Definition rules_of_lines (rule_counter : nat) (category : string) (lines : list chars)
  : list Rule :=
  omap returned
    (imap (λ i line, (parse_rule_text (rule_counter + i) line None category).2) lines).

End Parser.

(* ===================================================================== *)
(** ** engine.py *)
(* ===================================================================== *)

Module Engine.
Import Py Schema.

(** [BaselineEngine._evaluate_condition] *)
Definition _evaluate_condition (condition : Condition)
    (building_spec : gmap string value) : result bool :=
  (* Get the field value from building spec *)
  let field_value := default VNone (building_spec !! cond_field condition) in
  match field_value with
  | VNone => Ret false
  | _ =>
      (* Evaluate based on operator *)
      let operator := cond_operator condition in
      let target_value := cond_value condition in
      try_except
        (if op_is operator EQUALS then
           Ret (py_eq field_value target_value)
         else if op_is operator NOT_EQUALS then
           Ret (negb (py_eq field_value target_value))
         else if op_is operator GREATER_THAN then
           x ← float field_value; y ← float target_value; Ret (float_lt y x)
         else if op_is operator LESS_THAN then
           x ← float field_value; y ← float target_value; Ret (float_lt x y)
         else if op_is operator GREATER_THAN_OR_EQUAL then
           x ← float field_value; y ← float target_value; Ret (float_le y x)
         else if op_is operator LESS_THAN_OR_EQUAL then
           x ← float field_value; y ← float target_value; Ret (float_le x y)
         else if op_is operator IN then
           py_in field_value target_value
         else if op_is operator NOT_IN then
           negb <$> py_in field_value target_value
         else
           Ret false)
        [ValueError; TypeError] false
  end.

(** [all(results)], [any(results)] *)
Definition all (results : list bool) : bool := forallb id results.
Definition any (results : list bool) : bool := existsb id results.

(** [BaselineEngine._evaluate_condition_group].  It is only ever called
    on a group; on a single condition [group.conditions] does not exist. *)
Fixpoint _evaluate_condition_group (group : Conditions)
    (building_spec : gmap string value) : result bool :=
  match group with
  | ACondition _ => Raise AttributeError
  | ConditionGroup operator conditions =>
      results ←
        for_each (λ condition,
          match condition with
          | ACondition c => _evaluate_condition c building_spec
          | ConditionGroup _ _ => _evaluate_condition_group condition building_spec
          end) conditions;
      (* Apply logical operator *)
      if op_is operator AND then Ret (all results)
      else if op_is operator OR then Ret (any results)
      else if op_is operator NOT then Ret (negb (any results))
      else Ret false
  end.

(** [BaselineEngine.evaluate_rule] *)
Definition evaluate_rule (rule : Rule) (building_spec : gmap string value) : result bool :=
  match rule_conditions rule with
  | ACondition c => _evaluate_condition c building_spec
  | ConditionGroup _ _ => _evaluate_condition_group (rule_conditions rule) building_spec
  end.

(** The body of the loop of [BaselineEngine._apply_actions]. *)
Definition apply_action (baseline_properties : gmap string value) (action : Action)
  : gmap string value :=
  if String.eqb (action_type action) "set_value" then
    <[target action := act_value action]> baseline_properties
  else if String.eqb (action_type action) "apply_method" then
    (* Store method reference *)
    <[target action :=
        VDict [("method", act_value action);
               ("parameters", VDict (parameters action))]]> baseline_properties
  else if String.eqb (action_type action) "reference_table" then
    (* Store table reference *)
    <[target action :=
        VDict [("table", act_value action);
               ("parameters", VDict (parameters action))]]> baseline_properties
  else if String.eqb (action_type action) "evaluate" then
    (* Store evaluation result *)
    <[target action := act_value action]> baseline_properties
  else
    (* Generic action storage *)
    let baseline_properties :=
      match baseline_properties !! target action with
      | None => <[target action := VDict []]> baseline_properties
      | Some _ => baseline_properties
      end in
    <[target action :=
        VDict [("action_type", VStr (action_type action));
               ("value", act_value action);
               ("parameters", VDict (parameters action))]]> baseline_properties.

(** The object that the branch taken for [action] assigns to
    [baseline_properties[action.target]]. *)
Definition written (action : Action) : value :=
  let kind := action_type action in
  let with_parameters (key : string) :=
    VDict [(key, act_value action); ("parameters", VDict (parameters action))] in
  if String.eqb kind "set_value" then act_value action
  else if String.eqb kind "apply_method" then with_parameters "method"
  else if String.eqb kind "reference_table" then with_parameters "table"
  else if String.eqb kind "evaluate" then act_value action
  else VDict [("action_type", VStr kind); ("value", act_value action);
              ("parameters", VDict (parameters action))].

(** [BaselineEngine._apply_actions] *)
Definition _apply_actions (actions : list Action)
    (baseline_properties : gmap string value) : gmap string value :=
  foldl apply_action baseline_properties actions.

(** The entries of [matched_rules] and [evaluation_log]. *)
Record matched_entry : Type := mkMatched {
  m_rule_id : string;
  m_rule_name : string;
  m_category : string
}.

Record log_entry : Type := mkLog {
  l_rule_id : string;
  status : string;
  message : string
}.

(** The dict returned by [evaluate]. *)
Record baseline : Type := mkBaseline {
  input : gmap string value;
  matched_rules : list matched_entry;
  baseline_properties : gmap string value;
  evaluation_log : list log_entry
}.

(** One round of the loop of [evaluate]. *)
Definition evaluate_step (building_spec : gmap string value) (bl : baseline) (rule : Rule)
  : result baseline :=
  matched ← evaluate_rule rule building_spec;
  if matched : bool then
    Ret {| input := input bl;
           matched_rules :=
             matched_rules bl ++ [mkMatched (rule_id rule) (rule_name rule) (category rule)];
           (* Apply actions *)
           baseline_properties := _apply_actions (actions rule) (baseline_properties bl);
           evaluation_log :=
             evaluation_log bl ++
             [mkLog (rule_id rule) "matched"
                    ("Rule '" +:+ rule_name rule +:+ "' matched and applied")] |}
  else
    Ret {| input := input bl;
           matched_rules := matched_rules bl;
           baseline_properties := baseline_properties bl;
           evaluation_log :=
             evaluation_log bl ++
             [mkLog (rule_id rule) "not_matched"
                    ("Rule '" +:+ rule_name rule +:+ "' conditions not met")] |}.

Fixpoint evaluate_loop (building_spec : gmap string value) (bl : baseline)
    (sorted_rules : list Rule) : result baseline :=
  match sorted_rules with
  | [] => Ret bl
  | rule :: rest =>
      bl' ← evaluate_step building_spec bl rule;
      evaluate_loop building_spec bl' rest
  end.

(** [BaselineEngine.evaluate]; [self_rules] is [self.rules]. *)
Definition evaluate (self_rules : list Rule) (building_spec : gmap string value)
  : result baseline :=
  let bl := {| input := building_spec; matched_rules := [];
               baseline_properties := ∅; evaluation_log := [] |} in
  (* Sort rules by priority (higher priority first) *)
  let sorted_rules := sorted_desc priority self_rules in
  evaluate_loop building_spec bl sorted_rules.

(** The four operators that compare numbers. *)
Definition ordering (op : ComparisonOperator) : bool :=
  match op with
  | GREATER_THAN | LESS_THAN | GREATER_THAN_OR_EQUAL | LESS_THAN_OR_EQUAL => true
  | _ => false
  end.

(** The comparison made by an ordering operator, field value on the left. *)
Definition compare_by (op : ComparisonOperator) (x y : spec_float) : bool :=
  match op with
  | GREATER_THAN => float_lt y x
  | LESS_THAN => float_lt x y
  | GREATER_THAN_OR_EQUAL => float_le y x
  | LESS_THAN_OR_EQUAL => float_le x y
  | _ => false
  end.

(** Membership as the specification words it for a string container: the
    value is one of the single characters of the container. *)
Definition is_char_of (v : value) (container : string) : bool :=
  match v with
  | VStr s => existsb (λ ch, String.eqb s (String ch EmptyString)) (str container)
  | _ => false
  end.

(** No [int] among the operands is beyond the range of [float]: in the
    building specification, and in a condition tree. *)
Definition in_float_range (v : value) : Prop := float v ≠ Raise OverflowError.

Definition spec_in_range (building_spec : gmap string value) : Prop :=
  ∀ k v, building_spec !! k = Some v → in_float_range v.

Fixpoint operands_in_range (c : Conditions) : Prop :=
  match c with
  | ACondition c => in_float_range (cond_value c)
  | ConditionGroup _ conditions =>
      foldr (λ c rest, operands_in_range c ∧ rest) True conditions
  end.

(** The conditions of [rule] are evaluated on [building_spec] without an
    exception getting out; and they are, with the result [True]. *)
Definition evaluable (building_spec : gmap string value) (rule : Rule) : Prop :=
  ∃ matched, evaluate_rule rule building_spec = Ret matched.

Definition matches (building_spec : gmap string value) (rule : Rule) : bool :=
  match evaluate_rule rule building_spec with
  | Ret matched => matched
  | Raise _ => false
  end.

(** The actions of the rules of [applied], in that order, on
    [baseline_properties]. *)
Definition apply_rules (applied : list Rule) (baseline_properties : gmap string value)
  : gmap string value :=
  foldl (λ bp rule, _apply_actions (actions rule) bp) baseline_properties applied.

(** *** The queries of the engine *)

(** [BaselineEngine.get_applicable_rules]: the loop over [self.rules],
    in the order of the schema. *)
Fixpoint applicable_loop (building_spec : gmap string value) (applicable : list Rule)
    (rules : list Rule) : result (list Rule) :=
  match rules with
  | [] => Ret applicable
  | rule :: rest =>
      matched ← evaluate_rule rule building_spec;
      applicable_loop building_spec
        (if matched : bool then applicable ++ [rule] else applicable) rest
  end.

Definition get_applicable_rules (self_rules : list Rule)
    (building_spec : gmap string value) : result (list Rule) :=
  applicable_loop building_spec [] self_rules.

(** [BaselineEngine._get_required_fields] *)
Fixpoint _get_required_fields (conditions : Conditions) : list string :=
  match conditions with
  | ACondition c => [cond_field c]
  | ConditionGroup _ members =>
      foldl (λ fields cond, fields ++ _get_required_fields cond) [] members
  end.

(** The dict returned by [validate_building_spec]. *)
Record validation : Type := mkValidation {
  valid : bool;
  errors : list string;
  warnings : list string
}.

(** [BaselineEngine.validate_building_spec].  The required fields are
    collected in a [set], and Python does not fix the order in which a
    set of strings is gone through; [set_order] is that order, any
    arrangement of the elements. *)
Definition validate_building_spec (set_order : gset string → list string)
    (self_rules : list Rule) (building_spec : gmap string value) : validation :=
  (* Check for required fields based on rules *)
  let required_fields : gset string :=
    foldl (λ required rule,
             required ∪ list_to_set (_get_required_fields (rule_conditions rule)))
          ∅ self_rules in
  let warnings :=
    foldl (λ warnings field,
             match building_spec !! field with
             | None => warnings ++ ["Missing field: " +:+ field]
             | Some _ => warnings
             end)
          [] (set_order required_fields) in
  {| valid := true; errors := []; warnings := warnings |}.

(** What [evaluate_rule] works on: a single condition or a group. *)
Definition evaluate_tree (c : Conditions) (building_spec : gmap string value)
  : result bool :=
  match c with
  | ACondition c => _evaluate_condition c building_spec
  | ConditionGroup _ _ => _evaluate_condition_group c building_spec
  end.

(** The field [f] is that of a condition somewhere in the tree. *)
Inductive mentions (f : string) : Conditions → Prop :=
  | mentions_here (c : Condition) :
      cond_field c = f → mentions f (ACondition c)
  | mentions_inside (operator : op_field LogicalOperator) (members : list Conditions)
      (c : Conditions) :
      c ∈ members → mentions f c → mentions f (ConditionGroup operator members).

(** A tree built from single conditions and [AND] groups only. *)
Fixpoint conjunctive (c : Conditions) : bool :=
  match c with
  | ACondition _ => true
  | ConditionGroup operator members =>
      op_is operator AND && forallb conjunctive members
  end.

(** The entries that [evaluate] writes for a rule. *)
Definition matched_entry_of (rule : Rule) : matched_entry :=
  mkMatched (rule_id rule) (rule_name rule) (category rule).

Definition log_entry_of (building_spec : gmap string value) (rule : Rule) : log_entry :=
  if matches building_spec rule
  then mkLog (rule_id rule) "matched"
             ("Rule '" +:+ rule_name rule +:+ "' matched and applied")
  else mkLog (rule_id rule) "not_matched"
             ("Rule '" +:+ rule_name rule +:+ "' conditions not met").

(** The last action of a list that has the target [k]. *)
Definition last_writer (k : string) (actions : list Action) : option Action :=
  last (filter (λ a, target a = k) actions).

(** [f"Missing field: {field}"] *)
Definition missing_message (field : string) : string := "Missing field: " +:+ field.

(** [float(v)] gives a number, not a NaN. *)
Definition is_number (v : value) (x : spec_float) : Prop :=
  float v = Ret x ∧ x ≠ S754_nan.

End Engine.

(* ===================================================================== *)
(** ** Sample data *)
(* ===================================================================== *)

Module Samples.
Import Py Schema Engine.

(** A float written as in the source text, e.g. [1.0]. *)
Definition float_literal (s : string) : value :=
  match float_of_text (str s) with
  | Some f => VFloat f
  | None => VNone
  end.

Definition spec_of (items : list (string * value)) : gmap string value :=
  list_to_map items.

Definition office : gmap string value := spec_of [("building_type", VStr "office")].

Definition is_office : Conditions :=
  ACondition (mkCondition "building_type" (Member EQUALS) (VStr "office") None).

(** The two rules of [test_rule_priority] in tests/test_engine.py. *)
Definition set_lpd (v : string) : Action :=
  mkAction "set_value" "lighting_power_density" (float_literal v) [].

Definition low_priority : Rule :=
  mkRule "r001" "Low Priority" "A test rule" "lighting" is_office [set_lpd "1.0"] 1 [].

Definition high_priority : Rule :=
  mkRule "r002" "High Priority" "A test rule" "lighting" is_office [set_lpd "2.0"] 10 [].

Definition area_above (v : value) : Condition :=
  mkCondition "building_area" (Member GREATER_THAN) v None.

Definition zone_in (container : value) : Condition :=
  mkCondition "climate_zone" (Member IN) container None.

(** A rule text with [set] and without [then]. *)
Definition set_only_text : chars :=
  str "If building area exceeds 5000 set lighting power density to 1.0".

(** A schema with a nested group, parameters and metadata, and one whose
    only condition has the empty string as unit. *)
Definition nested_schema : RuleSchema :=
  mkRuleSchema "1.0"
    [ mkRule "r001" "Small Office" "Baseline for small offices" "building_type"
        (ConditionGroup (Member AND)
           [ACondition (mkCondition "building_type" (Member EQUALS) (VStr "office") None);
            ConditionGroup (Member NOT)
              [ACondition (mkCondition "building_area" (Member LESS_THAN) (VInt 25000)
                             (Some "sqft"))]])
        [mkAction "set_value" "lighting_power_density" (float_literal "1.0")
           [("unit", VStr "W/sqft")]]
        10 [];
      mkRule "r002" "Hot Climate" "" "hvac"
        (ACondition (mkCondition "climate_zone" (Member IN)
                       (VList [VStr "1a"; VStr "2a"]) None))
        [] 5 [("source", VNone)] ]
    [("description", VStr "sample")].

Definition empty_unit_schema : RuleSchema :=
  mkRuleSchema "1.0"
    [ mkRule "r001" "n" "d" "c"
        (ACondition (mkCondition "building_area" (Member EQUALS) (VInt 1) (Some "")))
        [] 0 [] ]
    [].

(** An office whose area is an integer beyond the range of [float], and
    a rule that compares the area. *)
Definition huge_office : gmap string value :=
  spec_of [("building_type", VStr "office"); ("building_area", VInt (10 ^ 400))].

Definition large_building : Rule :=
  mkRule "r003" "Large Building" "A test rule" "envelope"
    (ACondition (area_above (VInt 10000))) [] 5 [].

(** Three rules with the priorities 5, 10, 5. *)
Definition at_priority (id : string) (p : Z) : Rule :=
  mkRule id id "" "general" is_office [] p [].

Definition five_ten_five : list Rule :=
  [at_priority "first@5" 5; at_priority "only@10" 10; at_priority "second@5" 5].

End Samples.

(* ===================================================================== *)
(** ** Properties of the engine *)
(* ===================================================================== *)

Module EngineProps.
Import Py Schema Engine Samples.

(** Induction on condition trees, with the hypothesis for every member
    of a group. *)
Lemma Conditions_forall_ind (P : Conditions → Prop) :
  (∀ c, P (ACondition c)) →
  (∀ operator conditions, Forall P conditions → P (ConditionGroup operator conditions)) →
  ∀ c, P c.
Proof.
  intros Hc Hg. fix IH 1. intros [c|operator conditions]; [apply Hc|].
  apply Hg. induction conditions; constructor; [apply IH | assumption].
Qed.

(** *** Stable descending sort *)
Section SortedDesc.
Context {A : Type} (key : A → Z).

Lemma insert_desc_perm (x : A) (l : list A) : insert_desc key x l ≡ₚ x :: l.
Proof.
  induction l as [|y l IH]; simpl; [done|].
  destruct (key x <? key y); [|done].
  by rewrite IH, Permutation_swap.
Qed.

Lemma sorted_desc_perm (l : list A) : sorted_desc key l ≡ₚ l.
Proof.
  induction l as [|x l IH]; simpl; [done|].
  by rewrite insert_desc_perm, IH.
Qed.

Lemma insert_desc_sorted (x : A) (l : list A) :
  StronglySorted (key_ge key) l → StronglySorted (key_ge key) (insert_desc key x l).
Proof.
  induction 1 as [|y l Hl IH Hy]; simpl.
  - repeat constructor.
  - destruct (Z.ltb_spec (key x) (key y)) as [Hlt|Hge].
    + constructor; [done|].
      rewrite insert_desc_perm. constructor; [unfold key_ge; lia | done].
    + constructor; [by constructor|].
      constructor; [done|].
      eapply Forall_impl; [exact Hy|]. unfold key_ge. intros; lia.
Qed.

Lemma sorted_desc_sorted (l : list A) :
  StronglySorted (key_ge key) (sorted_desc key l).
Proof.
  induction l; simpl; [constructor | by apply insert_desc_sorted].
Qed.

Lemma insert_desc_filter (p : Z) (x : A) (l : list A) :
  filter (λ y, key y = p) (insert_desc key x l) = filter (λ y, key y = p) (x :: l).
Proof.
  induction l as [|y l IH]; simpl; [done|].
  destruct (Z.ltb_spec (key x) (key y)) as [Hlt|Hge]; [|done].
  rewrite !filter_cons in *.
  destruct (decide (key y = p)), (decide (key x = p)); try lia; by rewrite IH.
Qed.

Lemma sorted_desc_stable (p : Z) (l : list A) :
  filter (λ y, key y = p) (sorted_desc key l) = filter (λ y, key y = p) l.
Proof.
  induction l as [|x l IH]; simpl; [done|].
  rewrite insert_desc_filter, !filter_cons. by rewrite IH.
Qed.
End SortedDesc.

(** *** Action application *)

Lemma apply_action_target (bp : gmap string value) (a : Action) :
  apply_action bp a !! target a = Some (written a).
Proof.
  unfold apply_action, written.
  destruct (String.eqb (action_type a) "set_value"),
           (String.eqb (action_type a) "apply_method"),
           (String.eqb (action_type a) "reference_table"),
           (String.eqb (action_type a) "evaluate");
    simpl; apply lookup_insert_eq.
Qed.

Lemma apply_action_other (bp : gmap string value) (a : Action) (t : string) :
  target a ≠ t → apply_action bp a !! t = bp !! t.
Proof.
  intros Hne. unfold apply_action.
  repeat case_match; rewrite ?lookup_insert_ne by done; done.
Qed.

Lemma _apply_actions_untouched (acts : list Action) (bp : gmap string value) (t : string) :
  (∀ a, a ∈ acts → target a ≠ t) → _apply_actions acts bp !! t = bp !! t.
Proof.
  unfold _apply_actions. revert bp.
  induction acts as [|a acts IH]; intros bp Hall; simpl; [done|].
  rewrite IH by (intros; apply Hall; by right).
  apply apply_action_other, Hall. by left.
Qed.

Lemma _apply_actions_last (acts1 acts2 : list Action) (a : Action)
    (bp : gmap string value) :
  (∀ a', a' ∈ acts2 → target a' ≠ target a) →
  _apply_actions (acts1 ++ a :: acts2) bp !! target a = Some (written a).
Proof.
  intros Hall. unfold _apply_actions. rewrite foldl_app. simpl.
  fold (_apply_actions acts2 (apply_action (foldl apply_action bp acts1) a)).
  rewrite _apply_actions_untouched by done.
  apply apply_action_target.
Qed.


(** *** The loop of [evaluate] *)

Lemma evaluate_step_ret (spec : gmap string value) (bl : baseline) (r : Rule) :
  evaluable spec r →
  ∃ bl', evaluate_step spec bl r = Ret bl' ∧
    input bl' = input bl ∧
    evaluation_log bl' =
      evaluation_log bl ++
      [mkLog (rule_id r) (if matches spec r then "matched" else "not_matched")
         ("Rule '" +:+ rule_name r +:+
          (if matches spec r then "' matched and applied" else "' conditions not met"))] ∧
    matched_rules bl' =
      matched_rules bl ++
      (if matches spec r then [mkMatched (rule_id r) (rule_name r) (category r)] else []) ∧
    baseline_properties bl' =
      (if matches spec r then _apply_actions (actions r) (baseline_properties bl)
       else baseline_properties bl).
Proof.
  intros [m Hm]. unfold evaluate_step, matches. rewrite Hm. simpl.
  destruct m; eexists; (split; [reflexivity|]); simpl; by rewrite ?app_nil_r.
Qed.

Lemma evaluate_loop_ret (spec : gmap string value) (l : list Rule) (bl : baseline) :
  Forall (evaluable spec) l →
  ∃ bl', evaluate_loop spec bl l = Ret bl' ∧
    input bl' = input bl ∧
    map l_rule_id (evaluation_log bl') = map l_rule_id (evaluation_log bl) ++ map rule_id l ∧
    map m_rule_id (matched_rules bl') =
      map m_rule_id (matched_rules bl) ++ map rule_id (filter (matches spec) l) ∧
    baseline_properties bl' =
      apply_rules (filter (matches spec) l) (baseline_properties bl).
Proof.
  intros Hall. revert bl.
  induction Hall as [|r l Hr Hl IH]; intros bl; simpl.
  { exists bl. by rewrite !app_nil_r. }
  destruct (evaluate_step_ret spec bl r Hr) as (bl1 & -> & Hin & Hlog & Hm & Hbp).
  simpl. destruct (IH bl1) as (bl2 & -> & Hin2 & Hlog2 & Hm2 & Hbp2).
  exists bl2. split; [done|].
  rewrite Hin2, Hlog2, Hm2, Hbp2, Hin, Hlog, Hm, Hbp, filter_cons.
  rewrite !map_app, <- !app_assoc. simpl.
  destruct (matches spec r); case_decide; simpl in *; done.
Qed.

(** When an exception gets out of [evaluate], it is that of the first
    rule, in the order of the loop, whose conditions raise. *)
Lemma evaluate_loop_raises (spec : gmap string value) (l : list Rule) (bl : baseline)
    (e : exn) :
  evaluate_loop spec bl l = Raise e →
  ∃ earlier r later,
    l = earlier ++ r :: later ∧
    Forall (evaluable spec) earlier ∧
    evaluate_rule r spec = Raise e.
Proof.
  revert bl. induction l as [|r l IH]; intros bl; simpl; [done|].
  destruct (evaluate_rule r spec) as [m|e'] eqn:Er.
  - destruct (evaluate_step_ret spec bl r) as (bl1 & -> & _); [by exists m|].
    simpl. intros (earlier & r' & later & -> & Hall & Hr')%IH.
    exists (r :: earlier), r', later. split; [done|].
    split; [|done]. constructor; [by exists m | done].
  - unfold evaluate_step. rewrite Er. simpl. intros [= <-].
    by exists [], r, l.
Qed.

Lemma evaluate_raises_in_order (self_rules : list Rule)
    (building_spec : gmap string value) (e : exn) :
  evaluate self_rules building_spec = Raise e →
  ∃ earlier r later,
    sorted_desc priority self_rules = earlier ++ r :: later ∧
    Forall (evaluable building_spec) earlier ∧
    evaluate_rule r building_spec = Raise e.
Proof. apply evaluate_loop_raises. Qed.

Lemma apply_rules_app (l1 l2 : list Rule) (bp : gmap string value) :
  apply_rules (l1 ++ l2) bp = apply_rules l2 (apply_rules l1 bp).
Proof. apply foldl_app. Qed.

Lemma apply_rules_cons (r : Rule) (l : list Rule) (bp : gmap string value) :
  apply_rules (r :: l) bp = apply_rules l (_apply_actions (actions r) bp).
Proof. done. Qed.

Lemma apply_rules_untouched (l : list Rule) (bp : gmap string value) (t : string) :
  (∀ r a, r ∈ l → a ∈ actions r → target a ≠ t) →
  apply_rules l bp !! t = bp !! t.
Proof.
  unfold apply_rules. revert bp.
  induction l as [|r l IH]; intros bp Hall; simpl; [done|].
  rewrite IH by (intros r' a' ? ?; apply (Hall r' a'); [by right|done]).
  apply _apply_actions_untouched. intros a Ha. apply (Hall r a); [by left|done].
Qed.


(** Last write wins, where every rule can be evaluated.  Let [r] be the
    last rule, in the order in which
    [evaluate] goes through the rules (priority descending), that matched
    and has an action on a given property, and let [a] be its last action
    on that property, [target a].  Then the final
    [baseline_properties[target a]] is what [a] wrote, and no rule
    processed before [r] -- the other matched rules that wrote the
    property among them -- has a priority below that of [r]: the matched
    rule with the lowest priority decides, whatever the higher ones
    wrote.  The rule set is one whose conditions can all be evaluated on
    the building specification. *)
Theorem evaluate_last_write_wins
    (self_rules : list Rule) (building_spec : gmap string value)
    (earlier later : list Rule) (r : Rule) (acts1 acts2 : list Action) (a : Action) :
  Forall (evaluable building_spec) self_rules →
  sorted_desc priority self_rules = earlier ++ r :: later →
  evaluate_rule r building_spec = Ret true →
  actions r = acts1 ++ a :: acts2 →
  (∀ a', a' ∈ acts2 → target a' ≠ target a) →
  (∀ r' a', r' ∈ later → evaluate_rule r' building_spec = Ret true →
            a' ∈ actions r' → target a' ≠ target a) →
  ∃ bl, evaluate self_rules building_spec = Ret bl ∧
        baseline_properties bl !! target a = Some (written a) ∧
        ∀ r', r' ∈ earlier → priority r ≤ priority r'.
Proof.
  intros Hall Hsort Hr Hacts Hlast Hlater.
  assert (Hall' : Forall (evaluable building_spec) (sorted_desc priority self_rules)).
  { by rewrite sorted_desc_perm. }
  unfold evaluate.
  destruct (evaluate_loop_ret building_spec _
              {| input := building_spec; matched_rules := [];
                 baseline_properties := ∅; evaluation_log := [] |} Hall')
    as (bl & -> & _ & _ & _ & Hbp).
  simpl in Hbp. exists bl. split; [done|]. split.
  - rewrite Hbp, Hsort, filter_app, filter_cons. simpl.
    assert (Hm : matches building_spec r = true) by (unfold matches; by rewrite Hr).
    rewrite decide_True by (by rewrite Hm).
    rewrite apply_rules_app, apply_rules_cons, apply_rules_untouched.
    + rewrite Hacts. by apply _apply_actions_last.
    + intros r' a' [Hm' Hin]%list_elem_of_filter Ha'.
      apply (Hlater r' a'); try done.
      unfold matches in Hm'. destruct (evaluate_rule r' building_spec) as [[]|]; done.
  - intros r' Hr'.
    pose proof (sorted_desc_sorted priority self_rules) as Hs.
    rewrite Hsort in Hs.
    by apply (StronglySorted_app_1_elem_of _ earlier (r :: later) r' r Hs); [|left].
Qed.


(** The regression case of the specification: priorities 10 and 1 on the
    same target; the value of the rule with priority 1 stays. *)
Lemma evaluate_last_write_wins_witness :
  ∃ bl, evaluate [low_priority; high_priority] office = Ret bl ∧
        baseline_properties bl !! "lighting_power_density" = Some (float_literal "1.0") ∧
        ∀ r', r' ∈ [high_priority] → priority low_priority ≤ priority r'.
Proof.
  apply (evaluate_last_write_wins [low_priority; high_priority] office
           [high_priority] [] low_priority [] [] (set_lpd "1.0")).
  - repeat constructor; exists true; vm_compute; reflexivity.
  - vm_compute; reflexivity.
  - vm_compute; reflexivity.
  - reflexivity.
  - intros a' Ha'. inversion Ha'.
  - intros r' a' Hr'. inversion Hr'.
Defined.

(** C2 fails on a rule set in which a rule other than the two writers
    compares an integer too large for [float]: both writers match and
    write the same property, but the [OverflowError] of the third rule,
    which comes between them in the order of priority, gets out of
    [evaluate], and no final value is produced. *)
Theorem overflow_leaves_no_final_value :
  evaluate_rule low_priority huge_office = Ret true ∧
  evaluate_rule high_priority huge_office = Ret true ∧
  target <$> actions low_priority = ["lighting_power_density"] ∧
  target <$> actions high_priority = ["lighting_power_density"] ∧
  sorted_desc priority [low_priority; high_priority; large_building]
  = [high_priority; large_building; low_priority] ∧
  evaluate [low_priority; high_priority; large_building] huge_office
  = Raise OverflowError.
Proof. vm_compute. done. Qed.

(** C8.  [evaluate] goes through the rules in the order [sorted_desc
    priority]: a rearrangement of the rule set in which priorities never
    increase and in which the rules of any one priority stand as they
    stood in the schema.  The evaluation log has one entry per rule in
    that order, and the matched rules are recorded, and their actions
    applied, in that order.  The rule set is one whose conditions can all
    be evaluated on the building specification. *)
Theorem evaluate_priority_order
    (self_rules : list Rule) (building_spec : gmap string value) :
  Forall (evaluable building_spec) self_rules →
  let order := sorted_desc priority self_rules in
  order ≡ₚ self_rules ∧
  StronglySorted (λ r r', priority r' ≤ priority r) order ∧
  (∀ p, filter (λ r, priority r = p) order = filter (λ r, priority r = p) self_rules) ∧
  ∃ bl, evaluate self_rules building_spec = Ret bl ∧
        map l_rule_id (evaluation_log bl) = map rule_id order ∧
        map m_rule_id (matched_rules bl) =
          map rule_id (filter (matches building_spec) order) ∧
        baseline_properties bl = apply_rules (filter (matches building_spec) order) ∅.
Proof.
  intros Hall order.
  split; [apply sorted_desc_perm|].
  split; [apply (sorted_desc_sorted priority)|].
  split; [intros p; apply (sorted_desc_stable priority)|].
  assert (Hall' : Forall (evaluable building_spec) order).
  { unfold order. by rewrite sorted_desc_perm. }
  destruct (evaluate_loop_ret building_spec _
              {| input := building_spec; matched_rules := [];
                 baseline_properties := ∅; evaluation_log := [] |} Hall')
    as (bl & Hbl & _ & Hlog & Hm & Hbp).
  exists bl. done.
Qed.

(** Priorities [5, 10, 5]: the rule at 10, then the two at 5 as listed. *)
Lemma evaluate_priority_order_witness :
  ∃ bl, evaluate five_ten_five office = Ret bl ∧
        map l_rule_id (evaluation_log bl) = ["only@10"; "first@5"; "second@5"].
Proof.
  assert (H : Forall (evaluable office) five_ten_five).
  { repeat constructor; exists true; vm_compute; reflexivity. }
  destruct (evaluate_priority_order five_ten_five office H)
    as (_ & _ & _ & bl & Hbl & Hlog & _).
  exists bl. split; [exact Hbl|]. rewrite Hlog. vm_compute. reflexivity.
Defined.

End EngineProps.

(* ===================================================================== *)
(** ** Properties of condition evaluation *)
(* ===================================================================== *)

Module ConditionProps.
Import Py Schema Engine Samples EngineProps.

(** *** Substring test *)

Lemma startswith_prefix (p s : chars) : startswith p s = true ↔ ∃ post, s = p ++ post.
Proof.
  revert s. induction p as [|a p IH]; intros s; simpl.
  { split; eauto. }
  destruct s as [|c s].
  { split; [done | by intros [post [=]]]. }
  rewrite andb_true_iff, Ascii.eqb_eq, IH. split.
  - intros [-> [post ->]]. eauto.
  - intros [post [= -> ->]]. eauto.
Qed.

Lemma contains_occurs (sub s : chars) : contains sub s = true ↔ occurs_in sub s.
Proof.
  unfold occurs_in. induction s as [|c s IH]; simpl.
  - rewrite orb_false_r, startswith_prefix. split.
    + intros [post H]. by exists [], post.
    + intros (pre & post & H). destruct pre; [by exists post|done].
  - rewrite orb_true_iff, startswith_prefix, IH. split.
    + intros [[post H]|(pre & post & ->)]; [by exists [], post|].
      by exists (c :: pre), post.
    + intros (pre & post & H). destruct pre as [|c' pre]; simpl in H.
      * left. by exists post.
      * right. injection H as -> ->. eauto.
Qed.

(** C10.  A field that is present with the value [None] gives [False]
    under every operator, exactly as if the field were not there. *)
Theorem none_field_never_matches (condition : Condition) (building_spec : gmap string value) :
  building_spec !! cond_field condition = Some VNone →
  _evaluate_condition condition building_spec = Ret false ∧
  _evaluate_condition condition (delete (cond_field condition) building_spec) = Ret false.
Proof.
  intros H. unfold _evaluate_condition. by rewrite H, lookup_delete_eq.
Qed.

Lemma none_field_never_matches_witness :
  _evaluate_condition (mkCondition "climate_zone" (Member NOT_EQUALS) (VStr "5a") None)
    (spec_of [("climate_zone", VNone)]) = Ret false ∧
  _evaluate_condition (mkCondition "climate_zone" (Member NOT_EQUALS) (VStr "5a") None)
    (delete "climate_zone" (spec_of [("climate_zone", VNone)])) = Ret false.
Proof.
  apply (none_field_never_matches
           (mkCondition "climate_zone" (Member NOT_EQUALS) (VStr "5a") None)
           (spec_of [("climate_zone", VNone)])).
  vm_compute. reflexivity.
Defined.

(** *** What holds of C3 *)

Lemma absent_field_false (condition : Condition) (building_spec : gmap string value) :
  building_spec !! cond_field condition = None →
  _evaluate_condition condition building_spec = Ret false.
Proof. intros H. unfold _evaluate_condition. by rewrite H. Qed.

(** With the field present and not [None], the result is that of the
    branch of the operator, run under the [try]. *)
Lemma evaluate_condition_member (f : string) (op : ComparisonOperator) (tv : value)
    (u : option string) (building_spec : gmap string value) (fv : value) :
  building_spec !! f = Some fv → fv ≠ VNone →
  _evaluate_condition (mkCondition f (Member op) tv u) building_spec =
  try_except
    match op with
    | EQUALS => Ret (py_eq fv tv)
    | NOT_EQUALS => Ret (negb (py_eq fv tv))
    | IN => py_in fv tv
    | NOT_IN => negb <$> py_in fv tv
    | _ => x ← float fv; y ← float tv; Ret (compare_by op x y)
    end [ValueError; TypeError] false.
Proof.
  intros H Hne. unfold _evaluate_condition. simpl. rewrite H. simpl.
  destruct fv; try done; destruct op; reflexivity.
Qed.

Lemma equality_is_exact (f : string) (tv : value) (u : option string)
    (building_spec : gmap string value) (fv : value) :
  building_spec !! f = Some fv → fv ≠ VNone →
  _evaluate_condition (mkCondition f (Member EQUALS) tv u) building_spec
    = Ret (py_eq fv tv) ∧
  _evaluate_condition (mkCondition f (Member NOT_EQUALS) tv u) building_spec
    = Ret (negb (py_eq fv tv)).
Proof.
  intros H Hne. by rewrite !(evaluate_condition_member _ _ _ _ _ fv).
Qed.

(** A string is not turned into a number by [EQUALS], but it is by the
    ordering operators. *)
Example equality_does_not_coerce :
  _evaluate_condition (mkCondition "building_area" (Member EQUALS) (VInt 10000) None)
    (spec_of [("building_area", VStr "10000")]) = Ret false ∧
  _evaluate_condition (mkCondition "building_area" (Member GREATER_THAN_OR_EQUAL) (VInt 10000) None)
    (spec_of [("building_area", VStr "10000")]) = Ret true.
Proof. split; vm_compute; reflexivity. Qed.

(** The cases of the specification: a number above and below the
    bound, and a string that is not a number. *)
Example area_above_cases :
  map (λ v, _evaluate_condition (area_above (VInt 10000)) (spec_of [("building_area", v)]))
      [VInt 15000; VInt 5000; VStr "not-a-number"] =
  [Ret true; Ret false; Ret false].
Proof. vm_compute. reflexivity. Qed.

(** An operand that is not a number makes [float] raise [ValueError] or
    [TypeError], never anything else. *)
Lemma float_failure (v : value) (e : exn) :
  float v = Raise e →
  (e = ValueError ∧ ∃ s, v = VStr s) ∨
  (e = TypeError ∧ (v = VNone ∨ (∃ l, v = VList l) ∨ (∃ d, v = VDict d))) ∨
  (e = OverflowError ∧ ∃ z, v = VInt z ∧ float_of_int z = Raise OverflowError).
Proof.
  destruct v as [|b|z|f|s|l|d]; simpl; intros H; try discriminate.
  - inversion H; subst. right; left. eauto.
  - right; right. unfold float_of_int in *.
    destruct (f64_normalize z 0) eqn:E; try discriminate.
    inversion H; subst. split; [done|]. exists z. by rewrite E.
  - destruct (float_of_text (str s)); inversion H; subst. left. eauto.
  - inversion H; subst. right; left. eauto.
  - inversion H; subst. right; left. eauto 6.
Qed.

(** A failed coercion of a non-numeric operand gives [False]. *)
Lemma coercion_failure_false (f : string) (op : ComparisonOperator) (tv : value)
    (u : option string) (building_spec : gmap string value) (fv : value) (e : exn) :
  ordering op = true →
  building_spec !! f = Some fv →
  e = ValueError ∨ e = TypeError →
  float fv = Raise e ∨ ((∃ x, float fv = Ret x) ∧ float tv = Raise e) →
  _evaluate_condition (mkCondition f (Member op) tv u) building_spec = Ret false.
Proof.
  intros Hop H He Hfail.
  assert (fv = VNone ∨ fv ≠ VNone) as [->|Hne]
    by (destruct fv; [by left | by right ..]).
  { unfold _evaluate_condition. simpl. by rewrite H. }
  rewrite (evaluate_condition_member _ _ _ _ _ fv) by done.
  destruct Hfail as [->|[[x ->] ->]]; destruct op; try discriminate;
    destruct He as [-> | ->]; reflexivity.
Qed.

(** An operator that is none of the eight gives [False]. *)
Lemma unrecognized_operator_false (condition : Condition)
    (building_spec : gmap string value) :
  (∀ op, op_is (cond_operator condition) op = false) →
  _evaluate_condition condition building_spec = Ret false.
Proof.
  intros H. unfold _evaluate_condition. rewrite !H.
  by destruct (default VNone _).
Qed.

Example unrecognized_operator_sample :
  _evaluate_condition (mkCondition "building_type" (Other (VStr "like")) (VStr "office") None)
    office = Ret false.
Proof. vm_compute; reflexivity. Qed.

Lemma float_raises (v : value) (e : exn) :
  float v = Raise e → e = ValueError ∨ e = TypeError ∨ e = OverflowError.
Proof.
  intros [[-> _]|[[-> _]|[-> _]]]%float_failure; auto.
Qed.

Lemma py_in_raises (x c : value) (e : exn) : py_in x c = Raise e → e = TypeError.
Proof. destruct c, x; simpl; congruence. Qed.

Lemma try_except_escapes {A : Type} (body : result A) (dflt : A) (e : exn) :
  try_except body [ValueError; TypeError] dflt = Raise e →
  body = Raise e ∧ e ≠ ValueError ∧ e ≠ TypeError.
Proof. destruct body as [a|[]]; simpl; intros [= <-]; done. Qed.

Lemma compare_raises (fv tv : value) (k : spec_float → spec_float → bool) (e : exn) :
  (x ← float fv; y ← float tv; Ret (k x y)) = Raise e →
  e = ValueError ∨ e = TypeError ∨ e = OverflowError.
Proof.
  destruct (float fv) as [x|e1] eqn:E1; simpl.
  - destruct (float tv) as [y|e2] eqn:E2; simpl; [discriminate|].
    intros [= <-]. by apply float_raises in E2.
  - intros [= <-]. by apply float_raises in E1.
Qed.

(** The only exception that gets out is the [OverflowError] of [float]
    on an [int] operand of an ordering operator. *)
Lemma only_overflow_escapes (condition : Condition)
    (building_spec : gmap string value) (e : exn) :
  _evaluate_condition condition building_spec = Raise e → e = OverflowError.
Proof.
  unfold _evaluate_condition.
  destruct (default VNone _) eqn:Efv; [discriminate|..];
    intros (Hb & H1 & H2)%try_except_escapes;
    repeat match type of Hb with
           | (if ?c then _ else _) = _ => destruct c
           end;
    try discriminate;
    try (apply compare_raises in Hb; destruct Hb as [?|[?|?]]; congruence);
    try (apply py_in_raises in Hb; congruence);
    (destruct (py_in _ _) eqn:E; [discriminate|];
     simpl in Hb; apply py_in_raises in E; congruence).
Qed.

(** Without an integer operand out of the range of [float], the
    evaluation returns. *)
Lemma evaluate_condition_returns (condition : Condition)
    (building_spec : gmap string value) :
  (∀ fv, building_spec !! cond_field condition = Some fv →
         float fv ≠ Raise OverflowError) →
  float (cond_value condition) ≠ Raise OverflowError →
  ∃ matched, _evaluate_condition condition building_spec = Ret matched.
Proof.
  intros Hfv Htv.
  destruct (_evaluate_condition condition building_spec) as [m|e] eqn:E; [eauto|].
  exfalso. pose proof (only_overflow_escapes _ _ _ E) as ->.
  unfold _evaluate_condition in E.
  destruct (building_spec !! cond_field condition) as [fv|] eqn:Ef; [|discriminate].
  specialize (Hfv fv eq_refl). simpl in E.
  assert (Hcmp : ∀ k, (x ← float fv; y ← float (cond_value condition); Ret (k x y))
                      ≠ (Raise OverflowError : result bool)).
  { intros k. destruct (float fv); simpl; [|congruence].
    destruct (float (cond_value condition)); simpl; congruence. }
  destruct fv; [discriminate|..];
    apply try_except_escapes in E as (Hb & _ & _);
    repeat match type of Hb with
           | (if ?c then _ else _) = _ => destruct c
           end;
    try discriminate;
    try (exact (Hcmp _ Hb));
    try (by apply py_in_raises in Hb);
    (destruct (py_in _ _) eqn:E; [discriminate|];
     simpl in Hb; apply py_in_raises in E; congruence).
Qed.

Lemma for_each_returns {A B : Type} (f : A → result B) (l : list A) :
  Forall (λ x, ∃ y, f x = Ret y) l → ∃ ys, for_each f l = Ret ys.
Proof.
  induction 1 as [|x l [y Hy] _ [ys IH]]; simpl; [eauto|].
  rewrite Hy, IH. simpl. eauto.
Qed.

(** So a rule whose operands are all in range is evaluable, and
    [evaluate] returns on a rule set of such rules. *)
Lemma evaluate_rule_returns (rule : Rule) (building_spec : gmap string value) :
  spec_in_range building_spec →
  operands_in_range (rule_conditions rule) →
  evaluable building_spec rule.
Proof.
  intros Hspec. unfold evaluable, evaluate_rule.
  induction (rule_conditions rule) as [c|operator conditions IH]
    using Conditions_forall_ind; intros Hc.
  - apply evaluate_condition_returns; [|done]. intros fv Hfv. by apply (Hspec _ _ Hfv).
  - simpl in *.
    destruct (for_each_returns
                (λ condition,
                   match condition with
                   | ACondition c => _evaluate_condition c building_spec
                   | ConditionGroup _ _ => _evaluate_condition_group condition building_spec
                   end) conditions) as [results ->].
    + induction IH as [|c cs Hhead _ IHcs]; [constructor|].
      destruct Hc as [Hc Hcs]. constructor; [|by apply IHcs].
      destruct c; by apply Hhead.
    + simpl. repeat case_match; eauto.
Qed.

Lemma evaluate_returns (self_rules : list Rule) (building_spec : gmap string value) :
  spec_in_range building_spec →
  Forall (λ rule, operands_in_range (rule_conditions rule)) self_rules →
  ∃ bl, evaluate self_rules building_spec = Ret bl.
Proof.
  intros Hspec Hrules.
  assert (Hall : Forall (evaluable building_spec) (sorted_desc priority self_rules)).
  { rewrite sorted_desc_perm. eapply Forall_impl; [exact Hrules|].
    intros rule. by apply evaluate_rule_returns. }
  destruct (evaluate_loop_ret building_spec _
              {| input := building_spec; matched_rules := [];
                 baseline_properties := ∅; evaluation_log := [] |} Hall)
    as (bl & Hbl & _).
  by exists bl.
Qed.

(** *** Membership *)

(** C7, as the code has it.  For a container that is a string, [IN] holds
    exactly when the field value is a string that occurs in the container
    as a contiguous run of characters, of any length; [NOT_IN] holds
    exactly when the field value is a string that does not; a field value
    that is not a string gives [False] under both.  For a container that
    is a list, [IN] holds exactly when the field value is equal to an
    element, and [NOT_IN] exactly when it is equal to none. *)
Theorem membership_by_container (f : string) (u : option string)
    (building_spec : gmap string value) (fv : value) :
  building_spec !! f = Some fv → fv ≠ VNone →
  (∀ container : string,
     ∃ is_in not_in,
       _evaluate_condition (mkCondition f (Member IN) (VStr container) u) building_spec
         = Ret is_in ∧
       _evaluate_condition (mkCondition f (Member NOT_IN) (VStr container) u) building_spec
         = Ret not_in ∧
       (is_in = true ↔ ∃ s, fv = VStr s ∧ occurs_in (str s) (str container)) ∧
       (not_in = true ↔ ∃ s, fv = VStr s ∧ ¬ occurs_in (str s) (str container))) ∧
  (∀ container : list value,
     ∃ is_in,
       _evaluate_condition (mkCondition f (Member IN) (VList container) u) building_spec
         = Ret is_in ∧
       _evaluate_condition (mkCondition f (Member NOT_IN) (VList container) u) building_spec
         = Ret (negb is_in) ∧
       (is_in = true ↔ ∃ x, x ∈ container ∧ py_eq fv x = true)).
Proof.
  intros H Hne. split; intros container.
  - rewrite !(evaluate_condition_member _ _ _ _ _ fv) by done. simpl.
    destruct fv as [|b|z|x|s|l|d]; simpl;
      try (exists false, false; repeat split; try done; by intros (? & ? & ?)).
    exists (contains (str s) (str container)), (negb (contains (str s) (str container))).
    repeat split.
    + intros Hc. exists s. by rewrite <- contains_occurs.
    + intros (s' & [= <-] & Hc). by rewrite contains_occurs.
    + intros Hc. exists s. rewrite <- contains_occurs. split; [done|].
      by destruct (contains _ _).
    + intros (s' & [= <-] & Hc). rewrite <- contains_occurs in Hc.
      by destruct (contains _ _).
  - rewrite !(evaluate_condition_member _ _ _ _ _ fv) by done. simpl.
    exists (existsb (py_eq fv) container). repeat split.
    + intros (x & Hx & Heq)%existsb_exists. exists x. by rewrite list_elem_of_In.
    + intros (x & Hx & Heq). apply existsb_exists. exists x. by rewrite <- list_elem_of_In.
Qed.

Lemma membership_by_container_witness :
  (∀ container : string,
     ∃ is_in not_in,
       _evaluate_condition (zone_in (VStr container)) (spec_of [("climate_zone", VStr "2a")])
         = Ret is_in ∧
       _evaluate_condition
         (mkCondition "climate_zone" (Member NOT_IN) (VStr container) None)
         (spec_of [("climate_zone", VStr "2a")]) = Ret not_in ∧
       (is_in = true ↔ ∃ s, VStr "2a" = VStr s ∧ occurs_in (str s) (str container)) ∧
       (not_in = true ↔ ∃ s, VStr "2a" = VStr s ∧ ¬ occurs_in (str s) (str container))) ∧
  (∀ container : list value,
     ∃ is_in,
       _evaluate_condition (zone_in (VList container)) (spec_of [("climate_zone", VStr "2a")])
         = Ret is_in ∧
       _evaluate_condition
         (mkCondition "climate_zone" (Member NOT_IN) (VList container) None)
         (spec_of [("climate_zone", VStr "2a")]) = Ret (negb is_in) ∧
       (is_in = true ↔ ∃ x, x ∈ container ∧ py_eq (VStr "2a") x = true)).
Proof.
  apply (membership_by_container "climate_zone" None
           (spec_of [("climate_zone", VStr "2a")]) (VStr "2a")).
  - vm_compute. reflexivity.
  - discriminate.
Defined.

(** C7, as the specification has it, fails: ["2a"] is found in the
    container ["1a,2a"], of which it is not a character. *)
Lemma membership_is_not_character_wise :
  _evaluate_condition
    (mkCondition "climate_zone" (Member IN) (VStr "1a,2a") None)
    (spec_of [("climate_zone", VStr "2a")])
  ≠ Ret (is_char_of (VStr "2a") "1a,2a").
Proof. vm_compute. discriminate. Qed.

(** C3 fails on an integer too large for [float]: the [OverflowError]
    of the coercion is not among the exceptions caught, and gets out. *)
Theorem overflow_error_escapes :
  _evaluate_condition
    (mkCondition "building_area" (Member GREATER_THAN) (VInt 10000) None)
    (spec_of [("building_area", VInt (10 ^ 400))])
  = Raise OverflowError.
Proof. vm_compute. reflexivity. Qed.

End ConditionProps.

(* ===================================================================== *)
(** ** Properties of the schema: round trip *)
(* ===================================================================== *)

Module SchemaProps.
Import Py Schema Samples EngineProps.

Lemma enum_call_comparison (o : ComparisonOperator) :
  enum_call ComparisonOperator (VStr (enum_value o)) = Ret o.
Proof. by destruct o. Qed.

Lemma enum_call_logical (o : LogicalOperator) :
  enum_call LogicalOperator (VStr (enum_value o)) = Ret o.
Proof. by destruct o. Qed.

Lemma for_each_o_map {A B : Type} (f : A → outcome B) (g : B → A) (l : list B) :
  Forall (λ x, f (g x) = Done x) l → for_each_o f (map g l) = Done l.
Proof.
  induction 1 as [|x l Hx Hl IH]; simpl; [done|]. by rewrite Hx, IH.
Qed.

Lemma parse_condition_to_dict (c : Condition) :
  is_member (cond_operator c) = true → cond_unit c ≠ Some "" →
  _parse_condition (Condition_to_dict c) = Done c.
Proof.
  destruct c as [f [o|w] v u]; simpl; [intros _ Hu | done].
  unfold _parse_condition, Condition_to_dict. simpl.
  destruct u as [[|a u]|]; [done| |]; destruct o; reflexivity.
Qed.

Lemma looks_like_group_condition (c : Condition) :
  looks_like_group (Condition_to_dict c) = Ret false.
Proof.
  unfold looks_like_group, Condition_to_dict.
  destruct (cond_unit c) as [[|a u]|]; reflexivity.
Qed.

Lemma parse_action_to_dict (a : Action) : parse_action (Action_to_dict a) = Done a.
Proof.
  destruct a as [t g v [|p ps]]; reflexivity.
Qed.


Lemma parse_depth_member (x : value) (l : list value) :
  x ∈ l → (parse_depth x < parse_depth (VList l))%nat.
Proof.
  induction 1 as [x l|x y l Hx IH]; simpl in *; lia.
Qed.

Lemma parse_depth_group (operator : op_field LogicalOperator) (cs : list Conditions)
    (c : Conditions) :
  c ∈ cs →
  (S (S (parse_depth (Conditions_to_dict c)))
   ≤ parse_depth (Conditions_to_dict (ConditionGroup operator cs)))%nat.
Proof.
  intros Hc.
  assert (H : Conditions_to_dict c ∈ map Conditions_to_dict cs).
  { apply list_elem_of_fmap. eauto. }
  apply parse_depth_member in H. simpl in *. lia.
Qed.

Lemma subscript_depth (data v : value) (k : string) :
  subscript data k = Ret v → (parse_depth v < parse_depth data)%nat.
Proof.
  destruct data as [| | | | | |d]; try done. simpl. unfold assoc.
  induction d as [|[k' x] d IH]; simpl; [done|].
  destruct (String.eqb k' k); simpl.
  - intros [= <-]. lia.
  - intros H. specialize (IH H). lia.
Qed.

Lemma iterate_depth (v x : value) (l : list value) :
  iterate v = Ret l → x ∈ l → (parse_depth x ≤ parse_depth v)%nat.
Proof.
  destruct v as [| | | |s|l'|d]; try done; simpl; intros [= <-] Hx.
  - apply list_elem_of_fmap in Hx as (c & -> & _). done.
  - apply parse_depth_member in Hx. simpl in Hx. lia.
  - apply list_elem_of_fmap in Hx as (c & -> & _). simpl. lia.
Qed.

Lemma for_each_o_ext {A B : Type} (f g : A → outcome B) (l : list A) :
  (∀ x, x ∈ l → f x = g x) → for_each_o f l = for_each_o g l.
Proof.
  induction l as [|x l IH]; intros H; simpl; [done|].
  rewrite (H x) by left. rewrite IH; [done|]. intros; apply H; by right.
Qed.

(** Above the depth of the document, the fuel does not matter. *)
Lemma parse_group_fuel (fuel fuel' : nat) (data : value) :
  (parse_depth data < fuel)%nat → (parse_depth data < fuel')%nat →
  _parse_condition_group fuel data = _parse_condition_group fuel' data.
Proof.
  revert fuel' data. induction fuel as [|fuel IH]; intros fuel' data H H'; [lia|].
  destruct fuel' as [|fuel']; [lia|]. simpl.
  destruct (subscript data "conditions") as [cs|] eqn:Ecs; simpl; [|done].
  apply subscript_depth in Ecs.
  destruct (iterate cs) as [l|] eqn:El; simpl; [|done].
  rewrite (for_each_o_ext _ (condition_or_group (_parse_condition_group fuel')) l); [done|].
  intros x Hx. unfold condition_or_group.
  destruct (looks_like_group x) as [[]|]; simpl; try done.
  pose proof (iterate_depth _ _ _ El Hx). apply IH; lia.
Qed.

Lemma parse_group_document (fuel : nat) (o : LogicalOperator) (l : list value) :
  _parse_condition_group (S fuel)
    (VDict [("operator", VStr (enum_value o)); ("conditions", VList l)]) =
  conditions ← for_each_o (condition_or_group (_parse_condition_group fuel)) l;
  Done (ConditionGroup (Member o) conditions).
Proof.
  destruct o; simpl;
    destruct (for_each_o (condition_or_group (_parse_condition_group fuel)) l);
    reflexivity.
Qed.

(** A condition tree comes back from its document, whatever fuel above
    the depth of the document is given. *)
Lemma conditions_round_trip (c : Conditions) :
  well_typed c = true → units_kept c = true →
  ∀ fuel, (parse_depth (Conditions_to_dict c) < fuel)%nat →
  condition_or_group (_parse_condition_group fuel) (Conditions_to_dict c) = Done c.
Proof.
  induction c as [c|operator cs IH] using Conditions_forall_ind;
    intros Ht Hu fuel Hfuel; unfold condition_or_group.
  - simpl in *. rewrite looks_like_group_condition. simpl.
    rewrite parse_condition_to_dict; [done|done|].
    intros E. by rewrite E in Hu.
  - destruct operator as [o|]; [|done].
    simpl in Ht, Hu.
    change (lift (looks_like_group (Conditions_to_dict (ConditionGroup (Member o) cs))))
      with (Done true : outcome bool).
    destruct fuel as [|fuel]; [lia|].
    change (Done true ≫= _) with
      (_parse_condition_group (S fuel)
         (VDict [("operator", VStr (enum_value o));
                 ("conditions", VList (map Conditions_to_dict cs))])).
    rewrite parse_group_document, for_each_o_map; [done|].
    apply Forall_forall. intros c Hc.
    rewrite Forall_forall in IH. apply IH; [done|..].
    + rewrite forallb_forall in Ht. apply Ht. by apply list_elem_of_In.
    + rewrite forallb_forall in Hu. apply Hu. by apply list_elem_of_In.
    + pose proof (parse_depth_group (Member o) cs c Hc). lia.
Qed.

Lemma rule_round_trip (r : Rule) :
  well_typed (rule_conditions r) = true → units_kept (rule_conditions r) = true →
  parse_rule (Rule_to_dict r) = Done r.
Proof.
  intros Ht Hu. destruct r as [i n d c conds acts p m]. simpl in *.
  pose proof (conditions_round_trip conds Ht Hu _ (Nat.lt_succ_diag_r _)) as Hc.
  pose proof (for_each_o_map parse_action Action_to_dict acts) as Ha.
  rewrite Forall_forall in Ha. specialize (Ha (λ a _, parse_action_to_dict a)).
  unfold parse_rule, Rule_to_dict.
  destruct m as [|kv m];
    cbn -[condition_or_group for_each_o parse_depth _parse_condition_group];
    rewrite Hc; cbn -[for_each_o]; rewrite Ha; reflexivity.
Qed.

(** C9, as the code has it.  On a schema of the data model (operators
    are members of their enumerations) in which no condition has the
    empty string as unit, [from_dict] after [to_dict] gives the schema
    back: every scalar, every condition tree, every action list. *)
Theorem from_dict_to_dict (s : RuleSchema) :
  schema_well_typed s = true → schema_units_kept s = true →
  from_dict (to_dict s) = Done s.
Proof.
  intros Ht Hu. destruct s as [v rs m].
  unfold schema_well_typed, schema_units_kept in *. simpl in *.
  rewrite forallb_forall in Ht, Hu.
  pose proof (for_each_o_map parse_rule Rule_to_dict rs) as Hr.
  rewrite Forall_forall in Hr.
  assert (Hrs : for_each_o parse_rule (map Rule_to_dict rs) = Done rs).
  { apply Hr. intros r Hin%list_elem_of_In. by apply rule_round_trip; [apply Ht|apply Hu]. }
  unfold from_dict, to_dict.
  destruct m as [|kv m]; cbn -[for_each_o parse_rule]; rewrite Hrs; reflexivity.
Qed.

Lemma from_dict_to_dict_witness : from_dict (to_dict nested_schema) = Done nested_schema.
Proof.
  apply (from_dict_to_dict nested_schema); vm_compute; reflexivity.
Defined.

(** C9, as the specification has it, fails: a unit that is the empty
    string is left out of the document and comes back as [None]. *)
Lemma empty_unit_is_lost : from_dict (to_dict empty_unit_schema) ≠ Done empty_unit_schema.
Proof. vm_compute. discriminate. Qed.

End SchemaProps.

(* ===================================================================== *)
(** ** Properties of the parser *)
(* ===================================================================== *)

Module ParserProps.
Import Py Re Schema Parser Samples.
Import ConditionProps.

(** *** Cutting a text at a separator *)

Lemma startswith_drop (sep s : chars) :
  startswith sep s = true → s = sep ++ drop (length sep) s.
Proof.
  intros [post ->]%startswith_prefix. by rewrite drop_app_length.
Qed.

Lemma first_cut_spec (sep s pre post : chars) :
  first_cut sep s = Some (pre, post) → s = pre ++ sep ++ post.
Proof.
  revert pre. induction s as [|c s IH]; intros pre; simpl.
  - destruct (startswith sep []) eqn:E; [|done].
    intros [= <- <-]. by apply startswith_drop in E.
  - destruct (startswith sep (c :: s)) eqn:E.
    + intros [= <- <-]. by apply startswith_drop in E.
    + destruct (first_cut sep s) as [[pre' post']|]; [|done].
      simpl. intros [= <- <-]. simpl. f_equal. by apply IH.
Qed.

Lemma first_cut_least (sep s pre post : chars) :
  first_cut sep s = Some (pre, post) →
  ∀ pre' post', s = pre' ++ sep ++ post' → (length pre ≤ length pre')%nat.
Proof.
  revert pre. induction s as [|c s IH]; intros pre; simpl.
  - destruct (startswith sep []); [|done]. intros [= <- <-] ? ? _. simpl. lia.
  - destruct (startswith sep (c :: s)) eqn:E.
    { intros [= <- <-] ? ? _. simpl. lia. }
    destruct (first_cut sep s) as [[pre0 post0]|]; [|done].
    simpl. intros [= <- <-] pre' post' H.
    destruct pre' as [|c' pre']; simpl in H.
    + assert (startswith sep (c :: s) = true); [|congruence].
      apply startswith_prefix. eauto.
    + injection H as -> H. simpl.
      specialize (IH pre0 eq_refl pre' post' H). lia.
Qed.

Lemma contains_first_cut (sep s : chars) :
  contains sep s = true → ∃ pre post, first_cut sep s = Some (pre, post).
Proof.
  induction s as [|c s IH]; simpl.
  - destruct (startswith sep []); [eauto|done].
  - destruct (startswith sep (c :: s)); [eauto|]. simpl.
    intros (pre & post & ->)%IH. simpl. eauto.
Qed.

Lemma split_go_head (sep acc s pre post : chars) :
  sep ≠ [] → first_cut sep s = Some (pre, post) →
  head (split_go sep 0 acc s) = Some (rev acc ++ pre).
Proof.
  intros Hsep. revert acc pre. induction s as [|c s IH]; intros acc pre; simpl.
  - destruct sep; done.
  - destruct (startswith sep (c :: s)).
    + intros [= <- <-]. simpl. by rewrite app_nil_r.
    + destruct (first_cut sep s) as [[pre0 post0]|]; [|done].
      simpl. intros [= <- <-]. rewrite (IH (c :: acc) pre0 eq_refl).
      simpl. by rewrite <- app_assoc.
Qed.

Lemma split1_go_cut (sep acc s pre post : chars) :
  sep ≠ [] → first_cut sep s = Some (pre, post) →
  split1_go sep acc s = [rev acc ++ pre; post].
Proof.
  intros Hsep. revert acc pre. induction s as [|c s IH]; intros acc pre; simpl.
  - destruct sep; done.
  - destruct (startswith sep (c :: s)).
    + intros [= <- <-]. by rewrite app_nil_r.
    + destruct (first_cut sep s) as [[pre0 post0]|]; [|done].
      simpl. intros [= <- <-]. rewrite (IH (c :: acc) pre0 eq_refl).
      simpl. by rewrite <- app_assoc.
Qed.

Lemma find_first_true {A : Type} (f : A → bool) (l1 l2 : list A) (y : A) :
  (∀ x, x ∈ l1 → f x = false) → f y = true → find f (l1 ++ y :: l2) = Some y.
Proof.
  intros Hl1 Hy. induction l1 as [|x l1 IH]; simpl.
  - by rewrite Hy.
  - rewrite (Hl1 x) by left. apply IH. intros; apply Hl1. by right.
Qed.

Lemma not_occurs_contains (sub s : chars) : ¬ occurs_in sub s → contains sub s = false.
Proof.
  intros H. destruct (contains sub s) eqn:E; [|done].
  by apply contains_occurs in E.
Qed.

Lemma separator_cases (before after : list string) (sep : string) :
  condition_separators = before ++ sep :: after →
  (before = [] ∧ sep = " then ") ∨
  (before = [" then "] ∧ sep = " set ") ∨
  (before = [" then "; " set "] ∧ sep = " apply ") ∨
  (before = [" then "; " set "; " apply "] ∧ sep = " use ").
Proof.
  unfold condition_separators. intros H.
  destruct before as [|? [|? [|? [|? [|? ?]]]]]; simpl in H; simplify_eq; auto 6.
Qed.

(** C4, as the code has it.  The separators are tried in the fixed order
    of [condition_separators]; for the first of them that occurs in the
    lower-cased text, the condition text is what stands before its first
    occurrence, and, when that separator is one of the two that
    [_extract_actions] knows, the action text is what stands after it. *)
Theorem condition_text_preferred_separator
    (text : chars) (before after : list string) (sep : string) :
  condition_separators = before ++ sep :: after →
  (∀ s, s ∈ before → ¬ occurs_in (str s) (lower text)) →
  occurs_in (str sep) (lower text) →
  ∃ rest,
    lower text = condition_text text ++ str sep ++ rest ∧
    (∀ pre post, lower text = pre ++ str sep ++ post →
                 (length (condition_text text) ≤ length pre)%nat) ∧
    (sep ∈ action_separators → action_text (lower text) = rest).
Proof.
  intros Hlist Hbefore Hsep.
  apply contains_occurs in Hsep as Hc.
  destruct (contains_first_cut _ _ Hc) as (pre & rest & Hcut).
  assert (Hsepne : str sep ≠ []).
  { destruct (separator_cases _ _ _ Hlist) as [[_ ->]|[[_ ->]|[[_ ->]|[_ ->]]]]; done. }
  assert (Hcond : condition_text text = pre).
  { unfold condition_text. rewrite Hlist.
    rewrite (find_first_true _ before after sep); [|intros s Hs|done].
    - unfold split. by rewrite (split_go_head _ _ _ pre rest).
    - by apply not_occurs_contains, Hbefore. }
  exists rest. rewrite Hcond. split; [by apply first_cut_spec|].
  split; [by apply first_cut_least with rest|].
  intros Hact. unfold action_text, action_separators in *.
  destruct (separator_cases _ _ _ Hlist) as [[-> ->]|[[-> ->]|[[-> ->]|[-> ->]]]].
  - cbn [find]. rewrite Hc. unfold split1.
    by rewrite (split1_go_cut _ _ _ pre rest Hsepne).
  - cbn [find].
    rewrite (not_occurs_contains _ _ (Hbefore " then " ltac:(left))), Hc.
    unfold split1. by rewrite (split1_go_cut _ _ _ pre rest Hsepne).
  - apply list_elem_of_In in Hact. destruct Hact as [?|[?|[]]]; discriminate.
  - apply list_elem_of_In in Hact. destruct Hact as [?|[?|[]]]; discriminate.
Qed.

Lemma condition_text_preferred_separator_witness :
  ∃ rest,
    lower set_only_text = condition_text set_only_text ++ str " set " ++ rest ∧
    (∀ pre post, lower set_only_text = pre ++ str " set " ++ post →
                 (length (condition_text set_only_text) ≤ length pre)%nat) ∧
    (" set " ∈ action_separators → action_text (lower set_only_text) = rest).
Proof.
  apply (condition_text_preferred_separator set_only_text
           [" then "] [" apply "; " use "] " set ").
  - reflexivity.
  - intros s Hs Hocc. apply contains_occurs in Hocc.
    apply list_elem_of_In in Hs. destruct Hs as [<-|[]].
    vm_compute in Hocc. discriminate.
  - apply contains_occurs. vm_compute. reflexivity.
Defined.

(** C4, as the specification has it, fails: [" set "] comes first in the
    text, yet the text is cut at [" then "], which comes first in the
    list. *)
Lemma condition_text_not_at_earliest_separator :
  let text := str "if area exceeds 5000 set lighting to 1.0 then stop" in
  fst <$> earliest_cut (lower text) = Some (str "if area exceeds 5000") ∧
  Some (condition_text text) ≠ fst <$> earliest_cut (lower text).
Proof. vm_compute. split; [reflexivity | discriminate]. Qed.

(** *** Operator detection *)

Lemma parse_single_condition_operator (text : chars) (c : Condition) :
  _parse_single_condition text = Ret c →
  cond_operator c = Member (default EQUALS (first_match OPERATOR_PATTERNS (lower text))).
Proof.
  unfold _parse_single_condition.
  match goal with |- (?v ≫= _) = _ → _ => destruct v end; simpl; [|done].
  by intros [= <-].
Qed.

(** The order in which the operators are tried. *)
Lemma operator_order :
  map snd OPERATOR_PATTERNS =
  [EQUALS; NOT_EQUALS; GREATER_THAN_OR_EQUAL; LESS_THAN_OR_EQUAL; GREATER_THAN; LESS_THAN].
Proof. reflexivity. Qed.

Lemma search_from_alt (r1 r2 : regex) (prev : option ascii) (s : chars) :
  is_Some (search_from (Alt r1 r2) prev s) ↔
  is_Some (search_from r1 prev s) ∨ is_Some (search_from r2 prev s).
Proof.
  revert prev. induction s as [|c s IH]; intros prev; simpl;
    destruct (run r1 _), (run r2 _); simpl; rewrite ?IH;
    split; intros; try tauto; eauto; by destruct H as [[]|[]].
Qed.

Lemma found_is_Some (r : regex) (s : chars) : found r s = true ↔ is_Some (search r s).
Proof.
  unfold found. destruct (search r s); split; try done; eauto.
Qed.

Lemma found_alt (r1 r2 : regex) (s : chars) :
  found (Alt r1 r2) s = found r1 s || found r2 s.
Proof.
  apply Bool.eq_iff_eq_true.
  rewrite orb_true_iff, !found_is_Some. apply search_from_alt.
Qed.

(** Whatever else a text says, the word [is] in it makes the operator
    [EQUALS]: the first entry of the table takes it before any later
    entry is tried. *)
Lemma is_shadows_later_entries (text : chars) (c : Condition) :
  found (b (word "is")) (lower text) = true →
  _parse_single_condition text = Ret c →
  cond_operator c = Member EQUALS.
Proof.
  intros His Hc. rewrite (parse_single_condition_operator _ _ Hc).
  unfold first_match, OPERATOR_PATTERNS. cbn [find fst].
  cbn [alt]. rewrite !found_alt, His, orb_true_r. reflexivity.
Qed.

Example shadowed_phrasings :
  map (λ s, cond_operator <$> _parse_single_condition (str s))
      ["area is not 5"; "area not equals 5"; "area is at least 5";
       "area is less than 5"; "area exceeds 5"; "area at most 5"] =
  map (λ o, Ret (Member o))
      [EQUALS; EQUALS; EQUALS; EQUALS; GREATER_THAN; LESS_THAN_OR_EQUAL].
Proof. vm_compute. reflexivity. Qed.

(** C1 fails on the sample of the specification: [is greater than] is
    read as [EQUALS]; field, value and unit are as stated. *)
Theorem is_greater_than_parsed_as_equals :
  rule_conditions <$>
    (parse_rule_text 0
       (str "If building area is greater than 10000 sqft then set value to 1.5")
       None "general").2 =
  Ret (ACondition (mkCondition "building_area" (Member EQUALS) (VInt 10000) (Some "sqft"))).
Proof. vm_compute. reflexivity. Qed.

(** *** Single condition or group *)

(** The choice is made on the whole text, not on the condition text. *)
Lemma group_iff_connective_anywhere (text : chars) (c : Conditions) :
  _extract_conditions text = Ret c →
  (found (b (word "and")) (lower text) || found (b (word "or")) (lower text) = true
   ↔ ∃ operator conditions, c = ConditionGroup operator conditions).
Proof.
  unfold _extract_conditions, _parse_condition_group.
  destruct (_ || _).
  - destruct (for_each _ _); simpl; [|done]. intros [= <-]. split; eauto.
  - destruct (_parse_single_condition _); simpl; [|done]. intros [= <-].
    split; [done | by intros (? & ? & ?)].
Qed.

(** C5 fails when only the action part has a connective: the condition
    text has neither [and] nor [or], and a group of one comes out. *)
Theorem connective_in_action_makes_group :
  let text := str "If building type is office then set lighting and cooling to 1.0" in
  condition_text text = str "if building type is office" ∧
  found (b (word "and")) (condition_text text) = false ∧
  found (b (word "or")) (condition_text text) = false ∧
  _extract_conditions text =
  Ret (ConditionGroup (Member AND)
         [ACondition
            (mkCondition "building_type" (Member EQUALS) (VStr "office") (Some "degF"))]).
Proof. vm_compute. done. Qed.

(** *** Actions *)

Lemma extract_actions_fallback (text : chars) :
  contains (str " then ") (lower text) = false →
  contains (str " set ") (lower text) = false →
  _extract_actions text = Ret [fallback_action].
Proof. intros H1 H2. unfold _extract_actions. by rewrite H1, H2. Qed.

Lemma extract_actions_extracted (text : chars) (acts : list Action) :
  contains (str " then ") (lower text) || contains (str " set ") (lower text) = true →
  _extract_actions text = Ret acts →
  ∃ kind value,
    acts = [mkAction kind
              (default "property"
                 (first_match PROPERTY_PATTERNS (action_text (lower text))))
              value []] ∧
    kind ∈ ["set_value"; "apply_method"; "reference_table"].
Proof.
  intros H. unfold _extract_actions. rewrite H.
  destruct (search NUMBER _).
  - destruct (number_value _); simpl; [|done]. intros [= <-].
    do 2 eexists. split; [done|]. set_solver.
  - destruct (contains (str "method") _ || contains (str "procedure") _);
      [|destruct (contains (str "table") _)];
      simpl; intros [= <-]; do 2 eexists; (split; [done|]); set_solver.
Qed.

(** The fallback comes out exactly when neither [" then "] nor [" set "]
    is in the lower-cased text. *)
Lemma fallback_iff_no_then_no_set (text : chars) (acts : list Action) :
  _extract_actions text = Ret acts →
  (acts = [fallback_action] ↔
   contains (str " then ") (lower text) || contains (str " set ") (lower text) = false).
Proof.
  intros Hacts.
  destruct (contains (str " then ") (lower text) || contains (str " set ") (lower text))
    eqn:E.
  - destruct (extract_actions_extracted text acts E Hacts) as (kind & v & -> & Hk).
    split; [|done]. intros [= -> _ _].
    apply list_elem_of_In in Hk. destruct Hk as [?|[?|[?|[]]]]; discriminate.
  - apply orb_false_iff in E as [E1 E2].
    rewrite (extract_actions_fallback text E1 E2) in Hacts. by injection Hacts as <-.
Qed.

(** C6 fails on a text whose only separator is [apply]: the condition
    text is cut there, and what follows is not read; the action is the
    fallback. *)
Theorem apply_gives_fallback_action :
  let text := str "If building type is office apply method m1" in
  contains (str " apply ") (lower text) = true ∧
  condition_text text = str "if building type is office" ∧
  _extract_actions text = Ret [mkAction "evaluate" "compliance" (VStr "check") []].
Proof. vm_compute. done. Qed.

End ParserProps.

(* ===================================================================== *)
(** ** Further properties of the engine *)
(* ===================================================================== *)

Module EngineMore.
Import Py Schema Engine Samples EngineProps ConditionProps.

(** *** Applying actions *)

(** Every branch of the loop body comes down to one assignment; the
    empty dict that the generic branch first puts under a new target is
    overwritten at once. *)
Lemma apply_action_insert (bp : gmap string value) (a : Action) :
  apply_action bp a = <[target a := written a]> bp.
Proof.
  unfold apply_action, written.
  destruct (String.eqb (action_type a) "set_value"),
           (String.eqb (action_type a) "apply_method"),
           (String.eqb (action_type a) "reference_table"),
           (String.eqb (action_type a) "evaluate"); try done;
    destruct (bp !! target a); by rewrite ?insert_insert_eq.
Qed.

Lemma last_writer_snoc (k : string) (acts : list Action) (a : Action) :
  last_writer k (acts ++ [a]) = if decide (target a = k) then Some a else last_writer k acts.
Proof.
  unfold last_writer. rewrite filter_app, filter_cons, filter_nil.
  destruct (decide (target a = k)); [by rewrite last_snoc | by rewrite app_nil_r].
Qed.

Lemma apply_actions_last_writer (acts : list Action) (bp : gmap string value)
    (k : string) :
  _apply_actions acts bp !! k =
  match last_writer k acts with
  | Some a => Some (written a)
  | None => bp !! k
  end.
Proof.
  unfold _apply_actions. induction acts as [|a acts IH] using rev_ind; [done|].
  rewrite foldl_app, last_writer_snoc. simpl. rewrite apply_action_insert.
  destruct (decide (target a = k)) as [<-|Hne].
  - by rewrite lookup_insert_eq.
  - by rewrite lookup_insert_ne.
Qed.

(** X1.  After [_apply_actions], a key holds what the last action of the
    list with that target wrote; a key that no action targets holds what
    it held before (or is still absent). *)
Theorem apply_actions_lookup (acts : list Action) (bp : gmap string value) (k : string) :
  _apply_actions acts bp !! k =
  match last_writer k acts with
  | Some a => Some (written a)
  | None => bp !! k
  end.
Proof. apply apply_actions_last_writer. Qed.

(** X2.  Applying a list of actions a second time changes nothing. *)
Theorem apply_actions_idempotent (acts : list Action) (bp : gmap string value) :
  _apply_actions acts (_apply_actions acts bp) = _apply_actions acts bp.
Proof.
  apply map_eq. intros k. rewrite !apply_actions_last_writer.
  by destruct (last_writer k acts).
Qed.

(** *** Groups *)

Lemma for_each_app {A B : Type} (f : A → result B) (l1 l2 : list A) :
  for_each f (l1 ++ l2) =
  r1 ← for_each f l1; r2 ← for_each f l2; Ret (r1 ++ r2).
Proof.
  induction l1 as [|x l1 IH]; simpl.
  - by destruct (for_each f l2).
  - destruct (f x); simpl; [|done]. rewrite IH.
    destruct (for_each f l1); simpl; [|done]. by destruct (for_each f l2).
Qed.

Lemma for_each_raises {A B : Type} (f : A → result B) (l : list A) (e : exn) :
  for_each f l = Raise e ↔
  ∃ pre x post, l = pre ++ x :: post ∧
                Forall (λ y, ∃ b, f y = Ret b) pre ∧ f x = Raise e.
Proof.
  split.
  - induction l as [|x l IH]; simpl; [done|].
    destruct (f x) as [b|e'] eqn:Ex; simpl.
    + destruct (for_each f l) as [bs|e'']; simpl; [done|]. intros [= ->].
      destruct (IH eq_refl) as (pre & y & post & -> & Hpre & Hy).
      exists (x :: pre), y, post. split; [done|]. split; [|done].
      constructor; eauto.
    + intros [= ->]. exists [], x, l. by repeat split.
  - intros (pre & x & post & -> & Hpre & Hx).
    induction Hpre as [|y pre [b Hy] _ IH]; simpl.
    + by rewrite Hx.
    + by rewrite Hy, IH.
Qed.

Lemma group_unfold (operator : op_field LogicalOperator) (members : list Conditions)
    (spec : gmap string value) :
  _evaluate_condition_group (ConditionGroup operator members) spec =
  results ← for_each (λ m, evaluate_tree m spec) members;
  if op_is operator AND then Ret (all results)
  else if op_is operator OR then Ret (any results)
  else if op_is operator NOT then Ret (negb (any results))
  else Ret false.
Proof.
  simpl. f_equal.
Qed.

(** The last step of a group never raises. *)
Lemma group_result_returns (operator : op_field LogicalOperator) (results : list bool) :
  ∃ b, (if op_is operator AND then Ret (all results)
        else if op_is operator OR then Ret (any results)
        else if op_is operator NOT then Ret (negb (any results))
        else Ret false) = (Ret b : result bool).
Proof. repeat case_match; eauto. Qed.

(** X3.  A group does not stop at the member that settles its value:
    every member is evaluated, in order, and the group raises exactly
    when a member raises -- the exception of the first one that does --
    whatever the operator and whatever the members before it gave. *)
Theorem group_raises_iff_member_raises (operator : op_field LogicalOperator)
    (members : list Conditions) (building_spec : gmap string value) (e : exn) :
  _evaluate_condition_group (ConditionGroup operator members) building_spec = Raise e ↔
  ∃ pre c post,
    members = pre ++ c :: post ∧
    Forall (λ m, ∃ b, evaluate_tree m building_spec = Ret b) pre ∧
    evaluate_tree c building_spec = Raise e.
Proof.
  rewrite group_unfold, <- (for_each_raises (λ m, evaluate_tree m building_spec)).
  destruct (for_each _ members) as [results|e']; simpl.
  - destruct (group_result_returns operator results) as [b ->].
    split; discriminate.
  - split; congruence.
Qed.

Lemma all_app (l1 l2 : list bool) : all (l1 ++ l2) = all l1 && all l2.
Proof. unfold all. apply forallb_app. Qed.

Lemma any_app (l1 l2 : list bool) : any (l1 ++ l2) = any l1 || any l2.
Proof. unfold any. apply existsb_app. Qed.

(** X4.  A group of [AND]s inside an [AND] group, or of [OR]s inside an
    [OR] group, can be replaced by its members: same result, same
    exception. *)
Theorem nested_group_flattens (op : LogicalOperator)
    (pre inner post : list Conditions) (building_spec : gmap string value) :
  op = AND ∨ op = OR →
  _evaluate_condition_group
    (ConditionGroup (Member op) (pre ++ ConditionGroup (Member op) inner :: post))
    building_spec =
  _evaluate_condition_group
    (ConditionGroup (Member op) (pre ++ inner ++ post)) building_spec.
Proof.
  intros Hop. rewrite !group_unfold, !for_each_app.
  change (for_each (λ m, evaluate_tree m building_spec)
            (ConditionGroup (Member op) inner :: post))
    with (y ← _evaluate_condition_group (ConditionGroup (Member op) inner) building_spec;
          ys ← for_each (λ m, evaluate_tree m building_spec) post; Ret (y :: ys)).
  rewrite group_unfold.
  destruct (for_each _ pre) as [r1|]; [|done].
  destruct (for_each _ inner) as [r2|]; [|done].
  destruct (for_each _ post) as [r3|]; [|by destruct Hop as [-> | ->]].
  destruct Hop as [-> | ->]; simpl;
    by rewrite ?all_app, ?any_app; simpl; rewrite ?all_app, ?any_app.
Qed.

Lemma nested_group_flattens_witness :
  _evaluate_condition_group
    (ConditionGroup (Member OR)
       ([is_office] ++ ConditionGroup (Member OR) [is_office; is_office] :: []))
    office =
  _evaluate_condition_group
    (ConditionGroup (Member OR) ([is_office] ++ [is_office; is_office] ++ [])) office.
Proof.
  apply (nested_group_flattens OR [is_office] [is_office; is_office] [] office).
  by right.
Defined.

(** *** The whole result of [evaluate] *)

Lemma evaluate_loop_evaluable (spec : gmap string value) (l : list Rule) (bl bl' : baseline) :
  evaluate_loop spec bl l = Ret bl' → Forall (evaluable spec) l.
Proof.
  revert bl. induction l as [|r l IH]; intros bl; simpl; [constructor|].
  unfold evaluate_step.
  destruct (evaluate_rule r spec) as [m|e] eqn:Er; simpl; [|done].
  intros H. constructor; [by exists m|].
  destruct m; simpl in H; by eapply IH.
Qed.

Lemma evaluate_loop_full (spec : gmap string value) (l : list Rule) (bl : baseline) :
  Forall (evaluable spec) l →
  evaluate_loop spec bl l =
  Ret {| input := input bl;
         matched_rules :=
           matched_rules bl ++ map matched_entry_of (filter (matches spec) l);
         baseline_properties :=
           apply_rules (filter (matches spec) l) (baseline_properties bl);
         evaluation_log := evaluation_log bl ++ map (log_entry_of spec) l |}.
Proof.
  intros Hall. revert bl.
  induction Hall as [|r l [m Hr] Hl IH]; intros bl; simpl.
  { rewrite !app_nil_r. by destruct bl. }
  assert (Hm : matches spec r = m) by (unfold matches; by rewrite Hr).
  unfold evaluate_step. rewrite Hr. simpl.
  rewrite filter_cons. unfold log_entry_of at 1. rewrite Hm.
  destruct m; simpl; rewrite IH; simpl; by rewrite <- ?app_assoc.
Qed.

Lemma evaluate_full (self_rules : list Rule) (building_spec : gmap string value)
    (bl : baseline) :
  evaluate self_rules building_spec = Ret bl →
  let order := sorted_desc priority self_rules in
  bl = {| input := building_spec;
          matched_rules := map matched_entry_of (filter (matches building_spec) order);
          baseline_properties := apply_rules (filter (matches building_spec) order) ∅;
          evaluation_log := map (log_entry_of building_spec) order |}.
Proof.
  intros H order. unfold evaluate in H.
  pose proof (evaluate_loop_evaluable _ _ _ _ H) as Hall.
  rewrite (evaluate_loop_full _ _ _ Hall) in H. by injection H as <-.
Qed.

(** *** [get_applicable_rules] *)

Lemma applicable_loop_returns (spec : gmap string value) (l acc app : list Rule) :
  applicable_loop spec acc l = Ret app →
  Forall (evaluable spec) l ∧ app = acc ++ filter (matches spec) l.
Proof.
  revert acc. induction l as [|r l IH]; intros acc; simpl.
  { intros [= <-]. by rewrite app_nil_r. }
  destruct (evaluate_rule r spec) as [m|e] eqn:Er; simpl; [|done].
  intros [Hall ->]%IH. split; [constructor; [by exists m|done]|].
  assert (Hm : matches spec r = m) by (unfold matches; by rewrite Er).
  rewrite filter_cons, Hm.
  destruct m; simpl; by rewrite <- ?app_assoc.
Qed.

Section FilterSorted.
Context {A : Type} (key : A → Z) (P : A → bool).

Lemma insert_desc_head (x : A) (l : list A) :
  Forall (λ z, key z ≤ key x) l → insert_desc key x l = x :: l.
Proof.
  destruct 1 as [|y l Hy _]; simpl; [done|].
  destruct (Z.ltb_spec (key x) (key y)); [lia|done].
Qed.

Lemma filter_insert_desc (x : A) (l : list A) :
  StronglySorted (key_ge key) l →
  filter P (insert_desc key x l) =
  if P x then insert_desc key x (filter P l) else filter P l.
Proof.
  induction 1 as [|y l Hl IH Hy]; simpl.
  - rewrite filter_cons. by destruct (P x).
  - destruct (Z.ltb_spec (key x) (key y)) as [Hlt|Hge].
    + rewrite !filter_cons, IH.
      destruct (P y), (P x); simpl; try done.
      destruct (Z.ltb_spec (key x) (key y)); [done|lia].
    + rewrite !filter_cons. destruct (P x), (P y); simpl; try done.
      * destruct (Z.ltb_spec (key x) (key y)); [lia|done].
      * symmetry. apply insert_desc_head.
        apply Forall_forall. intros z [_ Hz]%list_elem_of_filter.
        rewrite Forall_forall in Hy. specialize (Hy z Hz).
        unfold key_ge in Hy. lia.
Qed.

Lemma filter_sorted_desc (l : list A) :
  filter P (sorted_desc key l) = sorted_desc key (filter P l).
Proof.
  induction l as [|x l IH]; simpl; [done|].
  rewrite filter_insert_desc by apply sorted_desc_sorted.
  rewrite filter_cons, IH. by destruct (P x).
Qed.
End FilterSorted.

(** X5.  [get_applicable_rules] gives the matching rules in the order of
    the schema, and [evaluate] records in [matched_rules] those same
    rules, rearranged by priority (highest first, ties as in the
    schema). *)
Theorem applicable_rules_are_the_matched (self_rules applicable : list Rule)
    (building_spec : gmap string value) :
  get_applicable_rules self_rules building_spec = Ret applicable →
  applicable = filter (matches building_spec) self_rules ∧
  ∃ bl, evaluate self_rules building_spec = Ret bl ∧
        matched_rules bl = map matched_entry_of (sorted_desc priority applicable).
Proof.
  intros [Hall ->]%applicable_loop_returns. split; [done|].
  assert (Hall' : Forall (evaluable building_spec) (sorted_desc priority self_rules)).
  { by rewrite sorted_desc_perm. }
  unfold evaluate. rewrite (evaluate_loop_full _ _ _ Hall'). eexists. split; [done|].
  simpl. by rewrite filter_sorted_desc.
Qed.

Lemma applicable_rules_are_the_matched_witness :
  [low_priority; high_priority] = filter (matches office) [low_priority; high_priority] ∧
  ∃ bl, evaluate [low_priority; high_priority] office = Ret bl ∧
        matched_rules bl =
        map matched_entry_of (sorted_desc priority [low_priority; high_priority]).
Proof.
  apply (applicable_rules_are_the_matched [low_priority; high_priority]
           [low_priority; high_priority] office).
  vm_compute. reflexivity.
Defined.

(** *** Order of the schema *)

Lemma fmap_NoDup_inj {A B : Type} (f : A → B) (l : list A) (x y : A) :
  NoDup (map f l) → x ∈ l → y ∈ l → f x = f y → x = y.
Proof.
  induction l as [|z l IH]; simpl; [by intros _ ?%elem_of_nil|].
  intros [Hz Hl]%NoDup_cons [->|Hx]%elem_of_cons [->|Hy]%elem_of_cons Hf; auto.
  - exfalso. apply Hz. rewrite Hf. apply list_elem_of_In, in_map, list_elem_of_In, Hy.
  - exfalso. apply Hz. rewrite <- Hf. apply list_elem_of_In, in_map, list_elem_of_In, Hx.
Qed.

(** X6.  When no two rules have the same priority, the order in which
    the schema lists them does not matter to [evaluate]. *)
Theorem evaluate_ignores_schema_order (rules1 rules2 : list Rule)
    (building_spec : gmap string value) :
  rules1 ≡ₚ rules2 → NoDup (map priority rules1) →
  evaluate rules1 building_spec = evaluate rules2 building_spec.
Proof.
  intros Hperm Hnd. unfold evaluate.
  replace (sorted_desc priority rules2) with (sorted_desc priority rules1); [done|].
  apply (StronglySorted_unique_strong (key_ge priority)).
  - intros x1 x2 Hx1 Hx2 H12 H21. unfold key_ge in *.
    apply (fmap_NoDup_inj priority rules1); [done|..|lia].
    + by rewrite <- (sorted_desc_perm priority rules1).
    + rewrite Hperm. by rewrite <- (sorted_desc_perm priority rules2).
  - apply sorted_desc_sorted.
  - apply sorted_desc_sorted.
  - by rewrite !sorted_desc_perm.
Qed.

Lemma evaluate_ignores_schema_order_witness :
  evaluate [low_priority; high_priority] office =
  evaluate [high_priority; low_priority] office.
Proof.
  apply (evaluate_ignores_schema_order [low_priority; high_priority]
           [high_priority; low_priority] office).
  - apply Permutation_swap.
  - vm_compute. repeat constructor; rewrite ?list_elem_of_In; simpl; intuition discriminate.
Defined.

(** *** Keys of the baseline properties *)

Lemma last_writer_Some (k : string) (acts : list Action) :
  is_Some (last_writer k acts) ↔ ∃ a, a ∈ acts ∧ target a = k.
Proof.
  unfold last_writer. split.
  - intros [a Ha]. apply last_Some_elem_of in Ha.
    apply list_elem_of_filter in Ha as [? ?]. eauto.
  - intros (a & Ha & Hk).
    assert (Hin : a ∈ filter (λ a, target a = k) acts) by by apply list_elem_of_filter.
    destruct (filter _ acts) as [|b l] eqn:E using rev_ind; [by apply elem_of_nil in Hin|].
    rewrite last_snoc. eauto.
Qed.

Lemma apply_actions_is_Some (acts : list Action) (bp : gmap string value) (k : string) :
  is_Some (_apply_actions acts bp !! k) ↔
  is_Some (bp !! k) ∨ ∃ a, a ∈ acts ∧ target a = k.
Proof.
  rewrite apply_actions_last_writer, <- last_writer_Some.
  destruct (last_writer k acts); split; eauto.
  - intros [?|[? ?]]; [done|discriminate].
Qed.

Lemma apply_rules_is_Some (l : list Rule) (bp : gmap string value) (k : string) :
  is_Some (apply_rules l bp !! k) ↔
  is_Some (bp !! k) ∨ ∃ r a, r ∈ l ∧ a ∈ actions r ∧ target a = k.
Proof.
  revert bp. induction l as [|r l IH]; intros bp.
  - unfold apply_rules. simpl. split; [eauto|].
    intros [?|(r & a & Hr & _)]; [done|by apply elem_of_nil in Hr].
  - rewrite apply_rules_cons, IH, apply_actions_is_Some. split.
    + intros [[?|(a & Ha & Hk)]|(r' & a & Hr' & Ha & Hk)]; eauto.
      * right. exists r, a. split; [by left|done].
      * right. exists r', a. split; [by right|done].
    + intros [?|(r' & a & [->|Hr']%elem_of_cons & Ha & Hk)]; eauto 7.
Qed.

(** X7.  The keys of [baseline_properties] are exactly the targets of
    the actions of the rules that matched: no rule that did not match
    leaves a key, and every action of a matched rule leaves one. *)
Theorem baseline_keys_are_matched_targets (self_rules : list Rule)
    (building_spec : gmap string value) (bl : baseline) (k : string) :
  evaluate self_rules building_spec = Ret bl →
  (is_Some (baseline_properties bl !! k) ↔
   ∃ r a, r ∈ self_rules ∧ evaluate_rule r building_spec = Ret true ∧
          a ∈ actions r ∧ target a = k).
Proof.
  intros ->%evaluate_full. simpl. rewrite apply_rules_is_Some, lookup_empty. split.
  - intros [[? [=]]|(r & a & [Hm Hr]%list_elem_of_filter & Ha & Hk)].
    exists r, a. rewrite sorted_desc_perm in Hr. split; [done|]. split; [|done].
    unfold matches in Hm. by destruct (evaluate_rule r building_spec) as [[]|].
  - intros (r & a & Hr & Hm & Ha & Hk). right. exists r, a. split; [|done].
    apply list_elem_of_filter. split; [unfold matches; by rewrite Hm|].
    by rewrite sorted_desc_perm.
Qed.

Lemma baseline_keys_are_matched_targets_witness :
  ∃ bl, evaluate [low_priority; high_priority] office = Ret bl ∧
  (is_Some (baseline_properties bl !! "lighting_power_density") ↔
   ∃ r a, r ∈ [low_priority; high_priority] ∧ evaluate_rule r office = Ret true ∧
          a ∈ actions r ∧ target a = "lighting_power_density").
Proof.
  eexists. split; [vm_compute; reflexivity|].
  apply (baseline_keys_are_matched_targets [low_priority; high_priority] office).
  vm_compute. reflexivity.
Defined.

(** *** Required fields and validation *)

Lemma required_fields_foldl (members : list Conditions) (acc : list string) :
  foldl (λ fields cond, fields ++ _get_required_fields cond) acc members =
  acc ++ concat (map _get_required_fields members).
Proof.
  revert acc. induction members as [|c cs IH]; intros acc; simpl.
  - by rewrite app_nil_r.
  - by rewrite IH, app_assoc.
Qed.

Lemma required_fields_mentions (f : string) (c : Conditions) :
  f ∈ _get_required_fields c ↔ mentions f c.
Proof.
  induction c as [c|operator members IH] using Conditions_forall_ind.
  - simpl. rewrite list_elem_of_singleton. split.
    + intros ->. by constructor.
    + by inversion 1.
  - simpl. rewrite required_fields_foldl. simpl.
    rewrite Forall_forall in IH. split.
    + intros (l & Hl & Hf)%list_elem_of_In%in_concat.
      apply in_map_iff in Hl as (c & <- & Hc%list_elem_of_In).
      apply (mentions_inside f operator members c Hc).
      by apply IH, list_elem_of_In.
    + inversion 1 as [|? ? c Hc Hm]; subst.
      apply list_elem_of_In, in_concat. exists (_get_required_fields c).
      split; [apply in_map, list_elem_of_In, Hc|].
      by apply list_elem_of_In, IH.
Qed.

Lemma required_set_foldl (rules : list Rule) (acc : gset string) (f : string) :
  f ∈ foldl (λ required rule,
               required ∪ list_to_set (_get_required_fields (rule_conditions rule)))
            acc rules ↔
  f ∈ acc ∨ ∃ r, r ∈ rules ∧ mentions f (rule_conditions r).
Proof.
  revert acc. induction rules as [|r rules IH]; intros acc; simpl.
  - split; [eauto|]. intros [?|(r & Hr & _)]; [done|by apply elem_of_nil in Hr].
  - rewrite IH, elem_of_union, elem_of_list_to_set, required_fields_mentions. split.
    + intros [[?|?]|(r' & Hr' & Hm)]; eauto.
      * right. exists r. split; [by left|done].
      * right. exists r'. split; [by right|done].
    + intros [?|(r' & [->|Hr']%elem_of_cons & Hm)]; eauto.
Qed.


Lemma warnings_foldl (spec : gmap string value) (order : list string) (acc : list string) :
  foldl (λ warnings field,
           match spec !! field with
           | None => warnings ++ [missing_message field]
           | Some _ => warnings
           end) acc order =
  acc ++ map missing_message (filter (λ f, spec !! f = None) order).
Proof.
  revert acc. induction order as [|f order IH]; intros acc; simpl.
  - by rewrite app_nil_r.
  - rewrite IH, filter_cons. destruct (spec !! f) eqn:E.
    + by rewrite decide_False.
    + rewrite decide_True by done. simpl. by rewrite <- app_assoc.
Qed.

(** X8.  [validate_building_spec] never fails a specification: [valid]
    is always true and [errors] always empty.  Its warnings are, without
    repetition and whatever the order in which the set of required
    fields is gone through, one message for each field that some
    condition of some rule names (at any depth of its tree) and that is
    not a key of the building specification. *)
Theorem validation_only_warns (set_order : gset string → list string)
    (self_rules : list Rule) (building_spec : gmap string value) :
  (∀ s, set_order s ≡ₚ elements s) →
  let v := validate_building_spec set_order self_rules building_spec in
  valid v = true ∧ errors v = [] ∧ NoDup (warnings v) ∧
  ∀ w, w ∈ warnings v ↔
       ∃ f, w = "Missing field: " +:+ f ∧
            (∃ r, r ∈ self_rules ∧ mentions f (rule_conditions r)) ∧
            building_spec !! f = None.
Proof.
  intros Horder v. split; [done|]. split; [done|].
  unfold v, validate_building_spec. simpl.
  change (foldl _ [] ?o) with
    (foldl (λ warnings field,
              match building_spec !! field with
              | None => warnings ++ [missing_message field]
              | Some _ => warnings
              end) [] o).
  rewrite warnings_foldl. simpl. split.
  - apply NoDup_fmap_2; [by intros f1 f2 [=]|].
    apply NoDup_filter. rewrite Horder. apply NoDup_elements.
  - intros w. rewrite list_elem_of_fmap. split.
    + intros (f & -> & [Hf Hin]%list_elem_of_filter). exists f. split; [done|].
      rewrite Horder, elem_of_elements, required_set_foldl in Hin.
      destruct Hin as [Hin|Hin]; [by apply not_elem_of_empty in Hin|done].
    + intros (f & -> & Hr & Hf). exists f. split; [done|].
      apply list_elem_of_filter. split; [done|].
      rewrite Horder, elem_of_elements, required_set_foldl. by right.
Qed.

Lemma validation_only_warns_witness :
  let v := validate_building_spec elements [low_priority; high_priority] office in
  valid v = true ∧ errors v = [] ∧ NoDup (warnings v) ∧
  ∀ w, w ∈ warnings v ↔
       ∃ f, w = "Missing field: " +:+ f ∧
            (∃ r, r ∈ [low_priority; high_priority] ∧ mentions f (rule_conditions r)) ∧
            office !! f = None.
Proof.
  apply (validation_only_warns elements [low_priority; high_priority] office).
  reflexivity.
Defined.

Lemma matched_condition_has_field (c : Condition) (spec : gmap string value) :
  _evaluate_condition c spec = Ret true →
  ∃ v, spec !! cond_field c = Some v ∧ v ≠ VNone.
Proof.
  unfold _evaluate_condition.
  destruct (spec !! cond_field c) as [v|]; simpl; [|done].
  destruct v; [done|..]; intros _; eexists; split; done.
Qed.

Lemma for_each_all {A : Type} (f : A → result bool) (l : list A) (results : list bool) :
  for_each f l = Ret results → all results = true → ∀ x, x ∈ l → f x = Ret true.
Proof.
  revert results. induction l as [|y l IH]; intros results; simpl.
  { by intros _ _ x ?%elem_of_nil. }
  destruct (f y) as [b|] eqn:Ey; simpl; [|done].
  destruct (for_each f l) as [bs|]; simpl; [|done].
  intros [= <-]. unfold all. simpl. intros [-> Hbs]%andb_true_iff x [->|Hx]%elem_of_cons.
  - done.
  - by apply (IH bs).
Qed.

(** X9.  A tree of single conditions and [AND] groups that evaluates to
    true has all its fields in the building specification, with values
    other than [None] -- so none of them is reported missing. *)
Theorem matched_conjunction_has_its_fields (c : Conditions)
    (building_spec : gmap string value) :
  conjunctive c = true →
  evaluate_tree c building_spec = Ret true →
  ∀ f, f ∈ _get_required_fields c →
       ∃ v, building_spec !! f = Some v ∧ v ≠ VNone.
Proof.
  induction c as [c|operator members IH] using Conditions_forall_ind;
    intros Hconj Heval f Hf.
  - simpl in Hf. apply list_elem_of_singleton in Hf as ->.
    by apply matched_condition_has_field.
  - apply required_fields_mentions in Hf.
    inversion Hf as [|? ? m Hm Hfm]; subst.
    simpl in Hconj. apply andb_true_iff in Hconj as [Hop Hall].
    change (evaluate_tree (ConditionGroup operator members) building_spec)
      with (_evaluate_condition_group (ConditionGroup operator members) building_spec)
      in Heval.
    rewrite group_unfold, Hop in Heval.
    destruct (for_each _ members) as [results|] eqn:Hres; simpl in Heval; [|done].
    injection Heval as Hresults.
    rewrite Forall_forall in IH. apply (IH m Hm).
    + rewrite forallb_forall in Hall. by apply Hall, list_elem_of_In.
    + by apply (for_each_all _ _ _ Hres Hresults).
    + by apply required_fields_mentions.
Qed.

Lemma matched_conjunction_has_its_fields_witness :
  ∃ v, office !! "building_type" = Some v ∧ v ≠ VNone.
Proof.
  apply (matched_conjunction_has_its_fields
           (ConditionGroup (Member AND) [is_office; is_office]) office).
  - vm_compute. reflexivity.
  - vm_compute. reflexivity.
  - vm_compute. left.
Defined.

(** *** Ordering operators *)

Lemma SFcompare_antisym (x y : spec_float) :
  SFcompare y x = CompOpp <$> SFcompare x y.
Proof.
  destruct x as [sx|sx| |sx mx ex], y as [sy|sy| |sy my ey]; simpl; try done;
    try (by destruct sx); try (by destruct sy); try (by destruct sx, sy).
  destruct sx, sy; simpl; try done;
    rewrite (Z.compare_antisym ex ey); destruct (ex ?= ey)%Z; simpl; try done;
    pose proof (Pos.compare_cont_antisym mx my Eq) as H; simpl in H;
    rewrite <- H; by rewrite ?CompOpp_involutive.
Qed.

Lemma SFcompare_number (x y : spec_float) :
  x ≠ S754_nan → y ≠ S754_nan → is_Some (SFcompare x y).
Proof. destruct x, y; simpl; try done; eauto. Qed.

Lemma float_lt_not_le (x y : spec_float) :
  x ≠ S754_nan → y ≠ S754_nan → float_lt y x = negb (float_le x y).
Proof.
  intros Hx Hy. unfold float_lt, float_le, SFltb, SFleb.
  rewrite (SFcompare_antisym x y).
  destruct (SFcompare_number x y Hx Hy) as [[] ->]; reflexivity.
Qed.

(** X10.  On operands that both coerce to numbers (not NaN), the
    ordering operators are complementary: [GREATER_THAN] holds exactly
    when [LESS_THAN_OR_EQUAL] does not, and [LESS_THAN] exactly when
    [GREATER_THAN_OR_EQUAL] does not. *)
Theorem ordering_operators_complementary (f : string) (tv : value) (u : option string)
    (building_spec : gmap string value) (fv : value) (x y : spec_float) :
  building_spec !! f = Some fv → is_number fv x → is_number tv y →
  ∃ gt lt,
    _evaluate_condition (mkCondition f (Member GREATER_THAN) tv u) building_spec = Ret gt ∧
    _evaluate_condition (mkCondition f (Member LESS_THAN_OR_EQUAL) tv u) building_spec
      = Ret (negb gt) ∧
    _evaluate_condition (mkCondition f (Member LESS_THAN) tv u) building_spec = Ret lt ∧
    _evaluate_condition (mkCondition f (Member GREATER_THAN_OR_EQUAL) tv u) building_spec
      = Ret (negb lt).
Proof.
  intros Hf [Hx Hxn] [Hy Hyn].
  assert (Hne : fv ≠ VNone) by (intros ->; discriminate).
  rewrite !(evaluate_condition_member _ _ _ _ _ fv) by done.
  rewrite Hx, Hy. simpl.
  exists (float_lt y x), (float_lt x y). repeat split.
  - by rewrite (float_lt_not_le x y), negb_involutive.
  - by rewrite (float_lt_not_le y x), negb_involutive.
Qed.

Lemma ordering_operators_complementary_witness :
  ∃ gt lt,
    _evaluate_condition (mkCondition "building_area" (Member GREATER_THAN) (VInt 10000) None)
      (spec_of [("building_area", VStr "15000.5")]) = Ret gt ∧
    _evaluate_condition
      (mkCondition "building_area" (Member LESS_THAN_OR_EQUAL) (VInt 10000) None)
      (spec_of [("building_area", VStr "15000.5")]) = Ret (negb gt) ∧
    _evaluate_condition (mkCondition "building_area" (Member LESS_THAN) (VInt 10000) None)
      (spec_of [("building_area", VStr "15000.5")]) = Ret lt ∧
    _evaluate_condition
      (mkCondition "building_area" (Member GREATER_THAN_OR_EQUAL) (VInt 10000) None)
      (spec_of [("building_area", VStr "15000.5")]) = Ret (negb lt).
Proof.
  eapply (ordering_operators_complementary "building_area" (VInt 10000) None
            (spec_of [("building_area", VStr "15000.5")]) (VStr "15000.5")).
  - vm_compute. reflexivity.
  - split; [vm_compute; reflexivity | discriminate].
  - split; [vm_compute; reflexivity | discriminate].
Defined.

Lemma applicable_loop_raises (spec : gmap string value) (l acc : list Rule) (e : exn) :
  applicable_loop spec acc l = Raise e → ∃ r, r ∈ l ∧ evaluate_rule r spec = Raise e.
Proof.
  revert acc. induction l as [|r l IH]; intros acc; simpl; [done|].
  destruct (evaluate_rule r spec) as [m|e'] eqn:Er; simpl.
  - intros (r' & Hr' & He)%IH. exists r'. split; [by right|done].
  - intros [= ->]. exists r. split; [by left|done].
Qed.

(** X11.  The two entry points that evaluate rules fail on the same
    inputs: [evaluate] raises exactly when [get_applicable_rules]
    raises, exactly when [evaluate_rule] raises on some rule of the
    set, matched or not and whatever its priority; and what comes out
    of either is an exception that [evaluate_rule] raises on a rule of
    the set.  Nothing is said about which exceptions those are. *)
Theorem engine_fails_iff_a_rule_fails (self_rules : list Rule)
    (building_spec : gmap string value) :
  ((∃ e, evaluate self_rules building_spec = Raise e) ↔
   ∃ r e, r ∈ self_rules ∧ evaluate_rule r building_spec = Raise e) ∧
  ((∃ e, get_applicable_rules self_rules building_spec = Raise e) ↔
   ∃ r e, r ∈ self_rules ∧ evaluate_rule r building_spec = Raise e) ∧
  ∀ e, evaluate self_rules building_spec = Raise e ∨
       get_applicable_rules self_rules building_spec = Raise e →
       ∃ r, r ∈ self_rules ∧ evaluate_rule r building_spec = Raise e.
Proof.
  assert (Hev : ∀ e, evaluate self_rules building_spec = Raise e →
                ∃ r, r ∈ self_rules ∧ evaluate_rule r building_spec = Raise e).
  { intros e (earlier & r & later & Hl & _ & Hr)%evaluate_raises_in_order.
    exists r. split; [|done]. rewrite <- (sorted_desc_perm priority self_rules), Hl.
    apply elem_of_app. right. by left. }
  assert (Hap : ∀ e, get_applicable_rules self_rules building_spec = Raise e →
                ∃ r, r ∈ self_rules ∧ evaluate_rule r building_spec = Raise e).
  { intros e. apply applicable_loop_raises. }
  repeat split.
  - intros [e He]. destruct (Hev e He) as (r & Hin & Hr). by exists r, e.
  - intros (r & e' & Hin & Hr).
    destruct (evaluate self_rules building_spec) as [bl|e] eqn:E; [|by exists e].
    apply evaluate_loop_evaluable in E. rewrite Forall_forall in E.
    destruct (E r) as [m Hm]; [by rewrite sorted_desc_perm | congruence].
  - intros [e He]. destruct (Hap e He) as (r & Hin & Hr). by exists r, e.
  - intros (r & e' & Hin & Hr).
    destruct (get_applicable_rules self_rules building_spec) as [app|e] eqn:E;
      [|by exists e].
    apply applicable_loop_returns in E as [E _]. rewrite Forall_forall in E.
    destruct (E r Hin) as [m Hm]. congruence.
  - intros e [He|He]; [by apply Hev | by apply Hap].
Qed.

End EngineMore.

(* ===================================================================== *)
(** ** Further properties of the schema *)
(* ===================================================================== *)

Module SchemaMore.
Import Py Schema Samples EngineProps SchemaProps.

Lemma forallb_map_ext {A : Type} (f : A → bool) (g : A → A) (l : list A) :
  Forall (λ x, f (g x) = f x) l → forallb f (map g l) = forallb f l.
Proof. induction 1 as [|x l Hx _ IH]; simpl; congruence. Qed.

Lemma forallb_map_true {A : Type} (f : A → bool) (g : A → A) (l : list A) :
  Forall (λ x, f (g x) = true) l → forallb f (map g l) = true.
Proof. induction 1 as [|x l Hx _ IH]; simpl; [done|]. by rewrite Hx, IH. Qed.

Lemma normalize_condition_to_dict (c : Condition) :
  Condition_to_dict (normalize_condition c) = Condition_to_dict c.
Proof. destruct c as [f o v [[|a u]|]]; reflexivity. Qed.

Lemma normalize_conditions_to_dict (c : Conditions) :
  Conditions_to_dict (normalize_conditions c) = Conditions_to_dict c.
Proof.
  induction c as [c|operator cs IH] using Conditions_forall_ind; simpl.
  - apply normalize_condition_to_dict.
  - rewrite map_map.
    rewrite (map_ext_in _ Conditions_to_dict cs); [done|].
    intros c Hc%list_elem_of_In. rewrite Forall_forall in IH. by apply IH.
Qed.

Lemma normalize_rule_to_dict (r : Rule) : Rule_to_dict (normalize_rule r) = Rule_to_dict r.
Proof.
  destruct r as [i n d c conds acts p m]. unfold Rule_to_dict, normalize_rule. simpl.
  by rewrite normalize_conditions_to_dict.
Qed.

Lemma normalize_to_dict (s : RuleSchema) : to_dict (normalize s) = to_dict s.
Proof.
  destruct s as [v rs m]. unfold to_dict, normalize. simpl.
  rewrite map_map. by rewrite (map_ext _ _ normalize_rule_to_dict).
Qed.

Lemma normalize_well_typed (c : Conditions) :
  well_typed (normalize_conditions c) = well_typed c.
Proof.
  induction c as [c|operator cs IH] using Conditions_forall_ind; simpl; [done|].
  f_equal. by apply forallb_map_ext.
Qed.

Lemma normalize_units_kept (c : Conditions) : units_kept (normalize_conditions c) = true.
Proof.
  induction c as [c|operator cs IH] using Conditions_forall_ind; simpl.
  - by destruct c as [f o v [[|a u]|]].
  - by apply forallb_map_true.
Qed.

Lemma normalize_rule_round_trip (r : Rule) :
  well_typed (rule_conditions r) = true →
  parse_rule (Rule_to_dict r) = Done (normalize_rule r).
Proof.
  intros Ht. rewrite <- normalize_rule_to_dict. apply rule_round_trip.
  - destruct r; simpl in *. by rewrite normalize_well_typed.
  - destruct r; simpl. apply normalize_units_kept.
Qed.

Lemma well_typed_round_trip (s : RuleSchema) :
  schema_well_typed s = true → from_dict (to_dict s) = Done (normalize s).
Proof.
  intros Ht. destruct s as [v rs m]. unfold schema_well_typed in Ht. simpl in Ht.
  rewrite forallb_forall in Ht.
  assert (Hrs : for_each_o parse_rule (map Rule_to_dict rs) = Done (map normalize_rule rs)).
  { clear v m. induction rs as [|r rs IH]; simpl; [done|].
    rewrite normalize_rule_round_trip by (apply Ht; by left).
    simpl. rewrite IH; [done|]. intros x Hx. apply Ht. by right. }
  unfold from_dict, to_dict, normalize.
  destruct m as [|kv m]; cbn -[for_each_o parse_rule]; rewrite Hrs; reflexivity.
Qed.

(** X12.  On a schema of the data model, [from_dict] after [to_dict]
    gives the schema back up to the units that are the empty string,
    which become [None]; and that schema has the same document, so
    nothing a document holds is lost by reading it and writing it. *)
Theorem from_dict_to_dict_normalizes (s : RuleSchema) :
  schema_well_typed s = true →
  from_dict (to_dict s) = Done (normalize s) ∧ to_dict (normalize s) = to_dict s.
Proof.
  intros Ht. split; [by apply well_typed_round_trip | apply normalize_to_dict].
Qed.

Lemma from_dict_to_dict_normalizes_witness :
  from_dict (to_dict empty_unit_schema) = Done (normalize empty_unit_schema) ∧
  to_dict (normalize empty_unit_schema) = to_dict empty_unit_schema.
Proof.
  apply (from_dict_to_dict_normalizes empty_unit_schema). vm_compute. reflexivity.
Defined.

(** *** What [from_dict] builds *)

Lemma for_each_o_Done {A B : Type} (f : A → outcome B) (P : B → Prop) (l : list A)
    (ys : list B) :
  (∀ x y, x ∈ l → f x = Done y → P y) →
  for_each_o f l = Done ys → Forall P ys.
Proof.
  revert ys. induction l as [|x l IH]; intros ys HP; simpl.
  - intros [= <-]. constructor.
  - destruct (f x) as [y| |] eqn:Ey; simpl; try done.
    destruct (for_each_o f l) as [ys'| |]; simpl; try done.
    intros [= <-]. constructor.
    + apply (HP x y); [by left|done].
    + apply IH; [|done]. intros x' y' Hx'. apply HP. by right.
Qed.

Lemma parse_condition_Done (data : value) (c : Condition) :
  _parse_condition data = Done c → is_member (cond_operator c) = true.
Proof.
  unfold _parse_condition.
  destruct (lift (subscript data "field")) as [f| |]; simpl; try done.
  destruct (lift (subscript data "operator")) as [o| |]; simpl; try done.
  destruct (lift (enum_call ComparisonOperator o)) as [o'| |]; simpl; try done.
  destruct (lift (subscript data "value")) as [v| |]; simpl; try done.
  destruct (lift (get data "unit")) as [u| |]; simpl; try done.
  destruct (want_str f) as [f'| |]; simpl; try done.
  destruct (want_opt_str (default VNone u)) as [u'| |]; simpl; try done.
  by intros [= <-].
Qed.

Lemma parse_Done_well_typed (fuel : nat) (data : value) (c : Conditions) :
  condition_or_group (_parse_condition_group fuel) data = Done c → well_typed c = true.
Proof.
  revert data c. induction fuel as [|fuel IH]; intros data c; unfold condition_or_group.
  - destruct (lift (looks_like_group data)) as [[]| |]; simpl; try done.
    destruct (_parse_condition data) as [c'| |] eqn:Ec; simpl; try done.
    intros [= <-]. simpl. by apply (parse_condition_Done data).
  - destruct (lift (looks_like_group data)) as [[]| |]; simpl; try done.
    + destruct (lift (subscript data "conditions")) as [cs| |]; simpl; try done.
      destruct (lift (iterate cs)) as [l| |]; simpl; try done.
      destruct (for_each_o _ l) as [members| |] eqn:Em; simpl; try done.
      destruct (lift (subscript data "operator")) as [o| |]; simpl; try done.
      destruct (lift (enum_call LogicalOperator o)) as [o'| |]; simpl; try done.
      intros [= <-]. simpl.
      apply forallb_forall. intros m Hm%list_elem_of_In.
      eapply (for_each_o_Done _ (λ m, well_typed m = true)) in Em.
      * rewrite Forall_forall in Em. by apply Em.
      * intros x y _ Hy. by apply (IH x).
    + destruct (_parse_condition data) as [c'| |] eqn:Ec; simpl; try done.
      intros [= <-]. simpl. by apply (parse_condition_Done data).
Qed.

Lemma parse_rule_well_typed (rule_data : value) (r : Rule) :
  parse_rule rule_data = Done r → well_typed (rule_conditions r) = true.
Proof.
  unfold parse_rule.
  destruct (lift (subscript rule_data "conditions")) as [cd| |]; simpl; try done.
  destruct (condition_or_group _ cd) as [conds| |] eqn:Ec; simpl; try done.
  apply (parse_Done_well_typed (S (parse_depth cd))) in Ec.
  destruct (lift (subscript rule_data "actions")) as [a| |]; simpl; try done.
  destruct (lift (iterate a)) as [al| |]; simpl; try done.
  destruct (for_each_o parse_action al) as [acts| |]; simpl; try done.
  destruct (lift (subscript rule_data "id")) as [i| |]; simpl; try done.
  destruct (lift (subscript rule_data "name")) as [n| |]; simpl; try done.
  destruct (lift (subscript rule_data "description")) as [d| |]; simpl; try done.
  destruct (lift (subscript rule_data "category")) as [c| |]; simpl; try done.
  destruct (lift (get rule_data "priority")) as [p| |]; simpl; try done.
  destruct (lift (get rule_data "metadata")) as [m| |]; simpl; try done.
  destruct (want_str i) as [i'| |]; simpl; try done.
  destruct (want_str n) as [n'| |]; simpl; try done.
  destruct (want_str d) as [d'| |]; simpl; try done.
  destruct (want_str c) as [c'| |]; simpl; try done.
  destruct (want_int _) as [p'| |]; simpl; try done.
  destruct (want_dict _) as [m'| |]; simpl; try done.
  by intros [= <-].
Qed.

Lemma from_dict_well_typed (data : value) (s : RuleSchema) :
  from_dict data = Done s → schema_well_typed s = true.
Proof.
  unfold from_dict.
  destruct (lift (get data "rules")) as [rs| |]; simpl; try done.
  destruct (lift (iterate _)) as [l| |]; simpl; try done.
  destruct (for_each_o parse_rule l) as [rules| |] eqn:Er; simpl; try done.
  destruct (lift (subscript data "version")) as [v| |]; simpl; try done.
  destruct (lift (get data "metadata")) as [m| |]; simpl; try done.
  destruct (want_str v) as [v'| |]; simpl; try done.
  destruct (want_dict _) as [m'| |]; simpl; try done.
  intros [= <-]. unfold schema_well_typed. simpl.
  apply forallb_forall. intros r Hr%list_elem_of_In.
  eapply (for_each_o_Done _ (λ r, well_typed (rule_conditions r) = true)) in Er.
  - rewrite Forall_forall in Er. by apply Er.
  - intros x y _. apply parse_rule_well_typed.
Qed.

(** X13.  [from_dict data = Done s] says that the document is accepted
    and that its scalars have the types of the annotations (strings
    for the names, a string or nothing for a unit, an int for the
    priority, dicts for parameters and metadata); documents with other
    scalars are outside this statement.  The schema read from such a
    document is a schema of the data model: every operator is a member
    of its enumeration, at every depth.  So writing it and reading it
    again succeeds, and changes nothing but empty units. *)
Theorem from_dict_builds_typed_schema (data : value) (s : RuleSchema) :
  from_dict data = Done s →
  schema_well_typed s = true ∧ from_dict (to_dict s) = Done (normalize s).
Proof.
  intros Hs%from_dict_well_typed. split; [done | by apply well_typed_round_trip].
Qed.

Lemma from_dict_builds_typed_schema_witness :
  schema_well_typed (normalize empty_unit_schema) = true ∧
  from_dict (to_dict (normalize empty_unit_schema))
  = Done (normalize (normalize empty_unit_schema)).
Proof.
  apply (from_dict_builds_typed_schema (to_dict empty_unit_schema)).
  vm_compute. reflexivity.
Defined.

Lemma enum_call_unknown (o : value) :
  (∀ e : ComparisonOperator, o ≠ VStr (enum_value e)) →
  enum_call ComparisonOperator o = Raise ValueError.
Proof.
  intros Ho. destruct o as [| | | |s| |]; try reflexivity.
  unfold enum_call.
  destruct (find _ enum_members) as [e|] eqn:Ef; [|done].
  apply find_some in Ef as [_ He%String.eqb_eq]. by destruct (Ho e); subst.
Qed.

(** X14.  A condition document that has its field, and an operator
    that is not exactly the value of a comparison operator (another
    spelling, another case or not a string), is rejected with
    [ValueError]. *)
Theorem unknown_operator_is_rejected (data f o : value) :
  subscript data "field" = Ret f →
  subscript data "operator" = Ret o →
  (∀ e : ComparisonOperator, o ≠ VStr (enum_value e)) →
  _parse_condition data = Failed ValueError.
Proof.
  intros Hf Ho He. unfold _parse_condition.
  rewrite Hf, Ho. simpl. by rewrite (enum_call_unknown o He).
Qed.

Lemma unknown_operator_is_rejected_witness :
  _parse_condition
    (VDict [("field", VStr "building_area"); ("operator", VStr "GREATER_THAN");
            ("value", VInt 50000)])
  = Failed ValueError.
Proof.
  apply (unknown_operator_is_rejected _ (VStr "building_area") (VStr "GREATER_THAN")).
  - reflexivity.
  - reflexivity.
  - intros e. destruct e; discriminate.
Defined.

(** X15.  [from_dict] accepts only a dict with the key [version]; the
    keys [rules] and [metadata] may be missing, and then the schema has
    no rules and empty metadata. *)
Theorem from_dict_needs_version (data : value) (s : RuleSchema) :
  from_dict data = Done s →
  ∃ d, data = VDict d ∧
       assoc "version" d = Some (VStr (version s)) ∧
       (assoc "rules" d = None → rules s = []) ∧
       (assoc "metadata" d = None → metadata s = []).
Proof.
  unfold from_dict.
  destruct data as [| | | | | |d]; try done. intros Hs. exists d. split; [done|].
  revert Hs. unfold get, subscript.
  destruct (assoc "rules" d) as [rs|]; simpl.
  - destruct (lift (iterate rs)) as [l| |]; simpl; try done.
    destruct (for_each_o parse_rule l) as [rules| |]; simpl; try done.
    destruct (assoc "version" d) as [[| | | |v| |]|]; simpl; try done.
    destruct (assoc "metadata" d) as [[| | | | | |m]|]; simpl; try done;
      intros [= <-]; simpl; repeat split; done.
  - destruct (assoc "version" d) as [[| | | |v| |]|]; simpl; try done.
    destruct (assoc "metadata" d) as [[| | | | | |m]|]; simpl; try done;
      intros [= <-]; simpl; repeat split; done.
Qed.

Lemma from_dict_needs_version_witness :
  ∃ d, VDict [("version", VStr "1.0")] = VDict d ∧
       assoc "version" d = Some (VStr (version (mkRuleSchema "1.0" [] []))) ∧
       (assoc "rules" d = None → rules (mkRuleSchema "1.0" [] []) = []) ∧
       (assoc "metadata" d = None → metadata (mkRuleSchema "1.0" [] []) = []).
Proof.
  apply (from_dict_needs_version (VDict [("version", VStr "1.0")])
           (mkRuleSchema "1.0" [] [])).
  reflexivity.
Defined.

(** X16.  A rule is read from the eight keys of [rule_keys] alone: two
    rule documents that agree on them give the same result, whatever
    else they hold and in whatever order. *)
Theorem parse_rule_reads_rule_keys (d1 d2 : list (string * value)) :
  (∀ k, k ∈ rule_keys → assoc k d1 = assoc k d2) →
  parse_rule (VDict d1) = parse_rule (VDict d2).
Proof.
  intros H. unfold parse_rule, subscript, get.
  rewrite !H; [done|unfold rule_keys; repeat constructor..].
Qed.

Lemma parse_rule_reads_rule_keys_witness :
  parse_rule (Rule_to_dict low_priority)
  = parse_rule
      (VDict (("author", VStr "a") ::
              rev (match Rule_to_dict low_priority with VDict d => d | _ => [] end))).
Proof.
  apply (parse_rule_reads_rule_keys
           (match Rule_to_dict low_priority with VDict d => d | _ => [] end)).
  intros k Hk. unfold rule_keys in Hk.
  repeat (apply elem_of_cons in Hk as [->|Hk]; [vm_compute; reflexivity|]).
  by apply elem_of_nil in Hk.
Defined.

End SchemaMore.

(* ===================================================================== *)
(** ** Further properties of the parser *)
(* ===================================================================== *)

Module ParserMore.
Import Py Re Schema Parser Samples EngineProps ConditionProps SchemaProps ParserProps.

(** *** The shape of parsed conditions *)

Lemma first_match_table {A : Type} (table : list (regex * A)) (s : chars) (x : A) :
  first_match table s = Some x → x ∈ map snd table.
Proof.
  unfold first_match. destruct (find _ table) as [entry|] eqn:E; [|done].
  intros [= <-]. apply find_some in E as [Hin _].
  apply list_elem_of_In. by apply in_map.
Qed.

Lemma number_value_shape (value_str : chars) (v : value) :
  number_value value_str = Ret v → (∃ z, v = VInt z) ∨ (∃ x, v = VFloat x).
Proof.
  unfold number_value. destruct (contains _ _).
  - destruct (float _); simpl; [|done]. intros [= <-]. eauto.
  - destruct (int_of_digits _); simpl; [|done]. intros [= <-]. eauto.
Qed.

Lemma parse_single_condition_shape (text : chars) (c : Condition) :
  _parse_single_condition text = Ret c → parsed_condition c.
Proof.
  unfold _parse_single_condition.
  match goal with |- (?m ≫= _) = _ → _ => destruct m as [v|] eqn:Ev end; simpl; [|done].
  intros [= <-]. unfold parsed_condition. simpl. repeat split.
  - destruct (first_match PROPERTY_PATTERNS _) eqn:E; simpl; [right|by left].
    by apply first_match_table in E.
  - eexists. split; [done|].
    destruct (first_match OPERATOR_PATTERNS _) eqn:E; simpl; [right|by left].
    by apply first_match_table in E.
  - destruct (first_match UNIT_PATTERNS _) as [u|] eqn:E; [right|by left].
    exists u. split; [done|]. by apply first_match_table in E.
  - destruct (search NUMBER _).
    { apply number_value_shape in Ev as [?|?]; auto. }
    repeat match type of Ev with
           | match ?x with _ => _ end = _ => destruct x
           | (if ?x then _ else _) = _ => destruct x
           end;
      injection Ev as <-; eauto.
Qed.

Lemma split_go_nonempty (sep : chars) (skip : nat) (acc s : chars) :
  split_go sep skip acc s ≠ [].
Proof.
  revert skip acc. induction s as [|c s IH]; intros skip acc; simpl; [done|].
  destruct skip; [|apply IH]. destruct (startswith sep (c :: s)); [done|apply IH].
Qed.

Lemma for_each_Forall2 {A B : Type} (f : A → result B) (l : list A) (ys : list B) :
  for_each f l = Ret ys → Forall2 (λ x y, f x = Ret y) l ys.
Proof.
  revert ys. induction l as [|x l IH]; intros ys; simpl.
  - intros [= <-]. constructor.
  - destruct (f x) as [y|] eqn:Ey; simpl; [|done].
    destruct (for_each f l) as [ys'|]; simpl; [|done].
    intros [= <-]. constructor; [done | by apply IH].
Qed.

Lemma parse_condition_group_shape (text : chars) (c : Conditions) :
  _parse_condition_group text = Ret c → parsed_conditions c.
Proof.
  unfold _parse_condition_group.
  set (operator := if contains (str " or ") (lower text) then OR else AND).
  destruct (for_each _ _) as [members|] eqn:E; simpl; [|done].
  intros [= <-]. apply for_each_Forall2 in E. simpl. repeat split.
  - unfold operator. destruct (contains _ _); auto.
  - intros ->. apply Forall2_nil_inv_r in E. by apply split_go_nonempty in E.
  - induction E as [|part m parts members Hm _ IH]; constructor; [|done].
    destruct (_parse_single_condition part) as [c|] eqn:Ec; simpl in Hm; [|done].
    injection Hm as <-. exists c. split; [done|].
    by apply parse_single_condition_shape in Ec.
Qed.

Lemma extract_conditions_parsed (text : chars) (c : Conditions) :
  _extract_conditions text = Ret c → parsed_conditions c.
Proof.
  unfold _extract_conditions. destruct (_ || _).
  - apply parse_condition_group_shape.
  - destruct (_parse_single_condition _) as [c'|] eqn:E; simpl; [|done].
    intros [= <-]. simpl. by apply parse_single_condition_shape in E.
Qed.

(** X17.  What [_extract_conditions] builds, whatever the text: a single
    condition, or a group that is [AND] or [OR], is not empty and holds
    single conditions only (no nesting, no [NOT]); every condition has a
    field of the property table or the placeholder [property], one of
    the six operators of the operator table (never [IN] or [NOT_IN]), a
    unit of the unit table or none, and an int, a float or a string as
    value. *)
Theorem extract_conditions_shape (text : chars) (c : Conditions) :
  _extract_conditions text = Ret c → parsed_conditions c.
Proof. apply extract_conditions_parsed. Qed.

Lemma extract_conditions_shape_witness :
  parsed_conditions
    (ConditionGroup (Member OR)
       [ACondition (mkCondition "building_type" (Member EQUALS) (VStr "office")
                      (Some "degF"));
        ACondition (mkCondition "building_area" (Member GREATER_THAN) (VInt 5000)
                      (Some "sqft"))]).
Proof.
  apply (extract_conditions_shape
           (str ("If building type equals office or building area exceeds 5000 sqft"
                 +:+ " then set lighting power density to 1.0"))).
  vm_compute. reflexivity.
Defined.

(** *** The actions *)

(** X18.  [_extract_actions] gives exactly one action, without
    parameters: the fallback, or an action of one of the three kinds
    on a target of the property table or the placeholder [property],
    whose value is an int, a float or a string. *)
Theorem extract_actions_single (text : chars) (acts : list Action) :
  _extract_actions text = Ret acts →
  ∃ a, acts = [a] ∧ parameters a = [] ∧
       (a = fallback_action ∨
        (action_type a ∈ ["set_value"; "apply_method"; "reference_table"] ∧
         (target a = "property" ∨ target a ∈ map snd PROPERTY_PATTERNS) ∧
         ((∃ z, act_value a = VInt z) ∨ (∃ x, act_value a = VFloat x) ∨
          (∃ t, act_value a = VStr t)))).
Proof.
  unfold _extract_actions.
  destruct (_ || _).
  - set (target := default "property" (first_match PROPERTY_PATTERNS _)).
    assert (Ht : target = "property" ∨ target ∈ map snd PROPERTY_PATTERNS).
    { unfold target. destruct (first_match PROPERTY_PATTERNS _) eqn:E; simpl; [right|by left].
      by apply first_match_table in E. }
    destruct (search NUMBER _).
    + destruct (number_value _) as [v|] eqn:Ev; simpl; [|done]. intros [= <-].
      eexists. split; [done|]. split; [done|]. right. simpl.
      split; [by left|]. split; [done|].
      apply number_value_shape in Ev as [?|?]; auto.
    + destruct (contains (str "method") _ || contains (str "procedure") _);
        [|destruct (contains (str "table") _)];
        simpl; intros [= <-]; eexists; (split; [done|]); (split; [done|]); right; simpl;
        (split; [repeat constructor|]); (split; [done|]); right; right;
        try destruct (search _ _); eauto.
  - simpl. intros [= <-]. exists fallback_action. split; [done|]. split; [done|]. by left.
Qed.

Lemma extract_actions_single_witness :
  ∃ a, [mkAction "set_value" "lighting_power_density" (float_literal "1.0") []] = [a] ∧
       parameters a = [] ∧
       (a = fallback_action ∨
        (action_type a ∈ ["set_value"; "apply_method"; "reference_table"] ∧
         (target a = "property" ∨ target a ∈ map snd PROPERTY_PATTERNS) ∧
         ((∃ z, act_value a = VInt z) ∨ (∃ x, act_value a = VFloat x) ∨
          (∃ t, act_value a = VStr t)))).
Proof.
  apply (extract_actions_single set_only_text). vm_compute. reflexivity.
Defined.

(** *** Parsed rules as documents *)

Lemma unit_table_nonempty (u : string) : u ∈ map snd UNIT_PATTERNS → u ≠ "".
Proof.
  intros Hu%list_elem_of_In. simpl in Hu.
  intros ->. repeat (destruct Hu as [Hu|Hu]; [discriminate|]). done.
Qed.

Lemma parsed_condition_typed (c : Condition) :
  parsed_condition c →
  is_member (cond_operator c) = true ∧ cond_unit c ≠ Some "".
Proof.
  intros (_ & (o & -> & _) & Hu & _). split; [done|].
  destruct Hu as [->|(u & -> & Hu)]; [done|].
  intros [= ->]. by apply unit_table_nonempty in Hu.
Qed.

Lemma parsed_conditions_typed (c : Conditions) :
  parsed_conditions c → well_typed c = true ∧ units_kept c = true.
Proof.
  destruct c as [c|operator members]; simpl.
  - intros [Ho Hu]%parsed_condition_typed. split; [done|].
    by apply negb_true_iff, bool_decide_eq_false.
  - intros (Hop & _ & Hall).
    assert (is_member operator = true) as -> by (by destruct Hop as [-> | ->]).
    simpl. rewrite !forallb_forall.
    rewrite Forall_forall in Hall.
    split; intros m Hm%list_elem_of_In;
      destruct (Hall m Hm) as (c & -> & [Ho Hu]%parsed_condition_typed); simpl; [done|].
    by apply negb_true_iff, bool_decide_eq_false.
Qed.

Lemma parse_rule_text_conditions (rule_counter : nat) (text : chars)
    (rule_id : option string) (category : string) (r : Rule) :
  (parse_rule_text rule_counter text rule_id category).2 = Ret r →
  _extract_conditions text = Ret (rule_conditions r) ∧
  _extract_actions text = Ret (actions r) ∧
  priority r = 0 ∧ rule_metadata r = [] ∧ Schema.category r = category ∧
  description r = unstr (strip text).
Proof.
  unfold parse_rule_text. destruct rule_id; simpl;
    destruct (_extract_conditions text) as [c|]; simpl; try done;
    destruct (_extract_actions text) as [a|]; simpl; try done;
    by intros [= <-].
Qed.

(** X19.  Rules made by the parser can be stored: a schema of such
    rules, with any version and metadata, comes back from its document
    exactly. *)
Theorem parsed_rules_round_trip (v : string) (rs : list Rule)
    (m : list (string * value)) :
  Forall (λ r, ∃ rule_counter text rule_id category,
               (parse_rule_text rule_counter text rule_id category).2 = Ret r) rs →
  from_dict (to_dict (mkRuleSchema v rs m)) = Done (mkRuleSchema v rs m).
Proof.
  intros Hrs.
  assert (Hdoc : for_each_o parse_rule (map Rule_to_dict rs) = Done rs).
  { apply for_each_o_map. eapply Forall_impl; [exact Hrs|].
    intros r (n & text & id & cat & Hr). simpl.
    apply parse_rule_text_conditions in Hr as (Hc & _).
    apply extract_conditions_parsed, parsed_conditions_typed in Hc as [Ht Hu].
    by apply rule_round_trip. }
  unfold from_dict, to_dict.
  destruct m as [|kv m]; cbn -[for_each_o parse_rule]; rewrite Hdoc; reflexivity.
Qed.

Lemma parsed_rules_round_trip_witness :
  from_dict
    (to_dict
       (mkRuleSchema "1.0"
          (match (parse_rule_text 0 set_only_text None "lighting").2 with
           | Ret r => [r]
           | Raise _ => []
           end) []))
  = Done
      (mkRuleSchema "1.0"
         (match (parse_rule_text 0 set_only_text None "lighting").2 with
          | Ret r => [r]
          | Raise _ => []
          end) []).
Proof.
  apply (parsed_rules_round_trip "1.0"
           (match (parse_rule_text 0 set_only_text None "lighting").2 with
            | Ret r => [r]
            | Raise _ => []
            end) []).
  apply Forall_forall. intros r Hr. exists 0%nat, set_only_text, None, "lighting".
  vm_compute in Hr. apply list_elem_of_In in Hr. destruct Hr as [<-|[]].
  vm_compute. reflexivity.
Defined.

(** *** Letter case *)

Lemma lower_char_idemp (c : ascii) : lower_char (lower_char c) = lower_char c.
Proof. destruct c as [[] [] [] [] [] [] [] []]; reflexivity. Qed.

Lemma lower_idemp (s : chars) : lower (lower s) = lower s.
Proof.
  unfold lower. rewrite map_map. apply map_ext. intros c. apply lower_char_idemp.
Qed.

(** X20.  The actions do not depend on the case of the letters of the
    text. *)
Theorem extract_actions_ignores_case (text : chars) :
  _extract_actions (lower text) = _extract_actions text.
Proof. unfold _extract_actions. by rewrite lower_idemp. Qed.

Lemma parse_condition_group_lower (text : chars) :
  _parse_condition_group (lower text) = _parse_condition_group text.
Proof. unfold _parse_condition_group. by rewrite lower_idemp. Qed.

Lemma condition_text_lower (text : chars) :
  find (λ separator, contains (str separator) (lower text)) condition_separators ≠ None →
  condition_text (lower text) = condition_text text.
Proof.
  unfold condition_text. rewrite lower_idemp.
  by destruct (find _ condition_separators).
Qed.

(** X21.  With a separator in the text, or a connective, the conditions
    do not depend on the case of the letters either: the text is
    lower-cased before it is cut and before it is split, so a quoted
    value keeps its capitals only in a lone condition without
    separator. *)
Theorem extract_conditions_ignores_case (text : chars) :
  find (λ separator, contains (str separator) (lower text)) condition_separators ≠ None ∨
  found (b (word "and")) (lower text) || found (b (word "or")) (lower text) = true →
  _extract_conditions (lower text) = _extract_conditions text.
Proof.
  intros H. unfold _extract_conditions. rewrite lower_idemp.
  destruct (found (b (word "and")) (lower text) || found (b (word "or")) (lower text))
    eqn:Econn.
  - unfold condition_text. rewrite lower_idemp.
    destruct (find _ condition_separators); [done|].
    by rewrite parse_condition_group_lower.
  - destruct H as [H|H]; [|done]. by rewrite condition_text_lower.
Qed.

Lemma extract_conditions_ignores_case_witness :
  let text :=
    String (ascii_of_nat 34) "Office" +:+
    String (ascii_of_nat 34) " Is The Building Type Then Stop" in
  _extract_conditions (lower (str text)) = _extract_conditions (str text) ∧
  _extract_conditions (str text)
  = Ret (ACondition (mkCondition "building_type" (Member EQUALS) (VStr "office") None)).
Proof.
  split.
  - apply (extract_conditions_ignores_case
             (str (String (ascii_of_nat 34) "Office" +:+
                   String (ascii_of_nat 34) " Is The Building Type Then Stop"))).
    left. vm_compute. discriminate.
  - vm_compute. reflexivity.
Defined.

(** *** Units *)

Lemma search_from_later (r : regex) (pre s : chars) (prev : option ascii) :
  (∀ before, run r (Pos before s []) ≠ []) →
  is_Some (search_from r prev (pre ++ s)).
Proof.
  intros Hrun. revert prev. induction pre as [|c pre IH]; intros prev.
  - simpl. destruct s as [|c s]; simpl;
      (destruct (run r _) eqn:E; [by apply Hrun in E | eauto]).
  - simpl. destruct (run r _); [apply IH | eauto].
Qed.

Lemma parse_single_condition_unit (text : chars) (c : Condition) :
  _parse_single_condition text = Ret c →
  cond_unit c = first_match UNIT_PATTERNS (lower text).
Proof.
  unfold _parse_single_condition.
  match goal with |- (?m ≫= _) = _ → _ => destruct m end; simpl; [|done].
  by intros [= <-].
Qed.

(** X22.  The temperature pattern asks for an [f] at the end of a word,
    and does not ask that a degree sign or a number come before it: a
    condition text in which an [f] stands at the end of the text or
    before an ASCII character that is not a word character ([if], [of]
    before a space, ...) gets a unit, [degF] unless one of the four area
    and power units is found first. *)
Theorem word_ending_in_f_gives_unit (text pre rest : chars) (c : Condition) :
  lower text = pre ++ "f"%char :: rest →
  (∀ a, head rest = Some a → is_word a = false ∧ (code a < 128)%nat) →
  _parse_single_condition text = Ret c →
  ∃ u, cond_unit c = Some u ∧ u ∈ ["sqft"; "sqm"; "W/sqft"; "W/sqm"; "degF"].
Proof.
  intros Htext Hrest Hc. rewrite (parse_single_condition_unit _ _ Hc).
  assert (Hf : found (seq [Opt (Chr degree); Chr "f"; Bnd]) (lower text) = true).
  { apply found_is_Some. rewrite Htext. apply search_from_later.
    assert (Hw : wordish (head rest) = false).
    { destruct (head rest) as [a|]; [|done]. by destruct (Hrest a eq_refl). }
    intros before. simpl. unfold at_boundary. simpl. by rewrite Hw. }
  unfold first_match, UNIT_PATTERNS. cbn [find fst].
  do 4 (match goal with
        | |- ∃ u, snd <$> (if found ?r ?s then _ else _) = _ ∧ _ =>
            destruct (found r s);
            [eexists; split; [reflexivity | repeat constructor] |]
        end).
  cbn [alt]. rewrite found_alt, Hf. simpl.
  eexists; split; [reflexivity | repeat constructor].
Qed.

Lemma word_ending_in_f_gives_unit_witness :
  ∃ u, cond_unit
         (mkCondition "num_stories" (Member GREATER_THAN) (VInt 3) (Some "degF")) = Some u ∧
       u ∈ ["sqft"; "sqm"; "W/sqft"; "W/sqm"; "degF"].
Proof.
  apply (word_ending_in_f_gives_unit (str "Number of stories exceeds 3")
           (str "number o") (str " stories exceeds 3")).
  - vm_compute. reflexivity.
  - intros a [= <-]. split; [reflexivity | vm_compute; lia].
  - vm_compute. reflexivity.
Defined.

(** *** Several rules in one text *)

Lemma rules_of_lines_cons (n : nat) (category : string) (line : chars) (lines : list chars) :
  rules_of_lines n category (line :: lines) =
  match returned (parse_rule_text n line None category).2 with
  | Some r => r :: rules_of_lines (S n) category lines
  | None => rules_of_lines (S n) category lines
  end.
Proof.
  unfold rules_of_lines. rewrite imap_cons. cbn [omap list_omap].
  rewrite Nat.add_0_r.
  rewrite (imap_ext _ (λ i line, (parse_rule_text (S n + i) line None category).2));
    [done|].
  intros i x _. simpl. by rewrite Nat.add_succ_r.
Qed.

Lemma parse_rules_step_candidate (category : string) (n : nat) (acc : list Rule)
    (line : chars) :
  strip line ≠ [] → startswith (str "#") (strip line) = false →
  parse_rules_step category (n, acc) line =
  (S n, match returned (parse_rule_text n (strip line) None category).2 with
        | Some r => acc ++ [r]
        | None => acc
        end).
Proof.
  intros Hne Hc. unfold parse_rules_step.
  rewrite bool_decide_eq_false_2, Hc by done. cbn [negb andb].
  unfold parse_rule_text.
  by destruct (_ ≫= _).
Qed.

Lemma parse_rules_step_skipped (category : string) (n : nat) (acc : list Rule)
    (line : chars) :
  ¬ (strip line ≠ [] ∧ startswith (str "#") (strip line) = false) →
  parse_rules_step category (n, acc) line = (n, acc).
Proof.
  intros Hno. unfold parse_rules_step.
  destruct (bool_decide (strip line = [])) eqn:E1; [done|].
  destruct (startswith (str "#") (strip line)) eqn:E2; [done|].
  destruct Hno. split; [|done]. by apply bool_decide_eq_false in E1.
Qed.

Lemma parse_rules_fold (category : string) (lines : list chars) (n : nat) (acc : list Rule) :
  let candidates :=
    filter (λ line, line ≠ [] ∧ startswith (str "#") line = false) (map strip lines) in
  foldl (parse_rules_step category) (n, acc) lines =
  ((n + length candidates)%nat, acc ++ rules_of_lines n category candidates).
Proof.
  revert n acc. induction lines as [|line lines IH]; intros n acc.
  { cbn. by rewrite Nat.add_0_r, app_nil_r. }
  cbn [foldl map]. cbv zeta in *.
  destruct (decide (strip line ≠ [] ∧ startswith (str "#") (strip line) = false))
    as [[Hne Hc]|Hno].
  - rewrite filter_cons_True by done.
    rewrite parse_rules_step_candidate, IH, rules_of_lines_cons by done.
    cbn [length]. rewrite Nat.add_succ_r.
    destruct (returned _); [by rewrite <- app_assoc | done].
  - rewrite filter_cons_False by done.
    rewrite parse_rules_step_skipped by done. apply IH.
Qed.

(** X23.  Of the pieces of a text, only those that are not blank and do
    not start with [#] are parsed, and only they are counted: the
    counter advances by one for each of them, also for one that fails to
    parse, and the rules come in the order of the text. *)
Theorem parse_rules_from_text_numbering (rule_counter : nat) (text : chars)
    (category : string) :
  parse_rules_from_text rule_counter text category =
  ((rule_counter + length (rule_lines text))%nat,
   rules_of_lines rule_counter category (rule_lines text)).
Proof. unfold parse_rules_from_text. by rewrite parse_rules_fold. Qed.

(** *** Rule ids *)

Lemma str_app (s1 s2 : string) : str (s1 +:+ s2) = str s1 ++ str s2.
Proof. induction s1 as [|c s1 IH]; simpl; [done|]. by rewrite <- IH. Qed.

Lemma append_assoc (s1 s2 s3 : string) : (s1 +:+ s2) +:+ s3 = s1 +:+ s2 +:+ s3.
Proof.
  induction s1 as [|c s1 IH]; [done|].
  change (String c ((s1 +:+ s2) +:+ s3) = String c (s1 +:+ s2 +:+ s3)). by rewrite IH.
Qed.

Lemma pretty_N_go_app (x : N) (s : string) :
  pretty_N_go x s = pretty_N_go x "" +:+ s.
Proof.
  revert s. induction (N.lt_wf_0 x) as [x _ IH]; intros s.
  destruct (decide (x = 0)%N) as [->|Hx].
  { by rewrite !pretty_N_go_0. }
  rewrite !(pretty_N_go_step x) by lia.
  assert (Hlt : (x `div` 10 < x)%N) by (apply N.div_lt; lia).
  rewrite (IH _ Hlt (String _ s)), (IH _ Hlt (String _ "")).
  by rewrite append_assoc.
Qed.

Lemma digit_val_pretty_N_char (d : N) : (d < 10)%N → digit_val (pretty_N_char d) = Z.of_N d.
Proof.
  intros Hd.
  assert (H : (d = 0 ∨ d = 1 ∨ d = 2 ∨ d = 3 ∨ d = 4 ∨ d = 5 ∨ d = 6 ∨ d = 7 ∨ d = 8
               ∨ d = 9)%N) by lia.
  repeat (destruct H as [->|H]; [reflexivity|]). by subst.
Qed.

Lemma digits_val_snoc (ds : chars) (c : ascii) :
  digits_val (ds ++ [c]) = 10 * digits_val ds + digit_val c.
Proof. unfold digits_val. by rewrite fold_left_app. Qed.

Lemma digits_val_pretty_N_go (x : N) : digits_val (str (pretty_N_go x "")) = Z.of_N x.
Proof.
  induction (N.lt_wf_0 x) as [x _ IH].
  destruct (decide (x = 0)%N) as [->|Hx].
  { by rewrite pretty_N_go_0. }
  rewrite pretty_N_go_step, pretty_N_go_app by lia.
  rewrite str_app. change (str (String ?c "")) with [c].
  rewrite digits_val_snoc, IH by (apply N.div_lt; lia).
  rewrite digit_val_pretty_N_char by (apply N.mod_lt; lia).
  rewrite (N.div_mod x 10) at 3 by lia. lia.
Qed.

Lemma digits_val_pretty (n : nat) : digits_val (str (pretty n)) = Z.of_nat n.
Proof.
  unfold pretty, pretty_nat, pretty, pretty_N.
  destruct (decide (N.of_nat n = 0)%N) as [E|E].
  - rewrite <- (Nat2N.id n), E. reflexivity.
  - rewrite digits_val_pretty_N_go. lia.
Qed.

Lemma digits_val_zeros (k : nat) (ds : chars) :
  digits_val (replicate k "0"%char ++ ds) = digits_val ds.
Proof.
  unfold digits_val. rewrite fold_left_app. f_equal.
  induction k as [|k IH]; simpl; [done|]. exact IH.
Qed.

(** The number of a generated id is the counter it was made from. *)
Lemma rule_id_number_format (n : nat) : rule_id_number (format_rule_id n) = Z.of_nat n.
Proof.
  unfold rule_id_number, format_rule_id.
  rewrite str_app. change (drop 5 (str "rule_" ++ ?l)) with l.
  rewrite str_app. unfold str at 1, unstr.
  rewrite list_ascii_of_string_of_list_ascii, digits_val_zeros.
  apply digits_val_pretty.
Qed.

Lemma parse_rule_text_id (n : nat) (line : chars) (category : string) (r : Rule) :
  (parse_rule_text n line None category).2 = Ret r →
  rule_id r = format_rule_id (S n) ∧ Schema.category r = category ∧ priority r = 0.
Proof.
  unfold parse_rule_text. simpl.
  destruct (_extract_conditions line); simpl; [|done].
  destruct (_extract_actions line); simpl; [|done].
  by intros [= <-].
Qed.

Lemma rules_of_lines_ids (category : string) (lines : list chars) (n : nat) :
  StronglySorted Z.lt (map (λ r, rule_id_number (rule_id r)) (rules_of_lines n category lines)) ∧
  Forall (λ r, Z.of_nat n < rule_id_number (rule_id r) ≤ Z.of_nat (n + length lines) ∧
               Schema.category r = category ∧ priority r = 0)
         (rules_of_lines n category lines).
Proof.
  revert n. induction lines as [|line lines IH]; intros n.
  { split; constructor. }
  rewrite rules_of_lines_cons. destruct (IH (S n)) as [Hs Hb].
  assert (Hb' : Forall (λ r, Z.of_nat n < rule_id_number (rule_id r)
                             ≤ Z.of_nat (n + length (line :: lines)) ∧
                             Schema.category r = category ∧ priority r = 0)
                  (rules_of_lines (S n) category lines)).
  { eapply Forall_impl; [exact Hb|]. simpl. intros r (? & ? & ?).
    split; [lia|done]. }
  destruct (parse_rule_text n line None category).2 as [r|e] eqn:Er; simpl; [|done].
  apply parse_rule_text_id in Er as (Hid & Hcat & Hprio).
  split.
  - constructor; [done|]. rewrite Hid, rule_id_number_format.
    apply Forall_fmap. eapply Forall_impl; [exact Hb|]. simpl. intros r' (? & _). lia.
  - constructor; [|done]. rewrite Hid, rule_id_number_format. simpl. split; [lia|done].
Qed.

(** X24.  The ids that [parse_rules_from_text] gives are numbered
    upwards in the order of the rules, above the counter the parser
    started from and up to the counter it ends with; so no two rules of
    a text, and no two rules of texts parsed one after the other by the
    same parser, have the same id.  Every rule has the category given
    and priority 0. *)
Theorem parsed_rule_ids_increase (rule_counter : nat) (text : chars) (category : string) :
  let result := parse_rules_from_text rule_counter text category in
  StronglySorted Z.lt (map (λ r, rule_id_number (rule_id r)) result.2) ∧
  NoDup (map rule_id result.2) ∧
  Forall (λ r, Z.of_nat rule_counter < rule_id_number (rule_id r) ≤ Z.of_nat result.1 ∧
               Schema.category r = category ∧ priority r = 0) result.2.
Proof.
  cbv zeta. unfold parse_rules_from_text. rewrite parse_rules_fold. cbn [fst snd app].
  fold (rule_lines text).
  destruct (rules_of_lines_ids category (rule_lines text) rule_counter) as [Hs Hb].
  split; [done|]. split; [|done].
  apply (NoDup_fmap_1 rule_id_number). rewrite <- list_fmap_compose.
  clear Hb. revert Hs. generalize (rules_of_lines rule_counter category (rule_lines text)).
  intros l Hs.
  assert (Hnd : NoDup (map (λ r, rule_id_number (rule_id r)) l)).
  { induction Hs as [|x l' Hs IH Hall]; constructor; [|done].
    intros Hin. rewrite Forall_forall in Hall. specialize (Hall x Hin). lia. }
  exact Hnd.
Qed.

End ParserMore.

(* ===================================================================== *)
(** ** Parsed rules in the engine *)
(* ===================================================================== *)

Module ParserEngine.
Import Py Re Schema Parser Engine Samples EngineProps ConditionProps EngineMore.

Lemma sorted_desc_equal_keys {A : Type} (key : A → Z) (p : Z) (l : list A) :
  Forall (λ x, key x = p) l → sorted_desc key l = l.
Proof.
  induction 1 as [|x l Hx Hl IH]; [done|].
  unfold sorted_desc in *. simpl. rewrite IH.
  destruct Hl as [|y l Hy _]; simpl; [done|].
  by rewrite Hx, Hy, Z.ltb_irrefl.
Qed.

(** X25.  Among rules of one priority the order of the list decides:
    the log, the matched rules and the writes follow it, so of two
    matched rules that write the same property the later one wins.
    The rules that the parser makes all have priority 0, so for them
    this is the order of the lines of the text. *)
Theorem equal_priorities_follow_list_order (self_rules : list Rule) (p : Z)
    (building_spec : gmap string value) (bl : baseline) :
  Forall (λ r, priority r = p) self_rules →
  evaluate self_rules building_spec = Ret bl →
  evaluation_log bl = map (log_entry_of building_spec) self_rules ∧
  matched_rules bl = map matched_entry_of (filter (matches building_spec) self_rules) ∧
  baseline_properties bl = apply_rules (filter (matches building_spec) self_rules) ∅.
Proof.
  intros Hp Hbl. apply evaluate_full in Hbl. cbv zeta in Hbl.
  rewrite (sorted_desc_equal_keys priority p) in Hbl by done.
  by rewrite Hbl.
Qed.

Lemma equal_priorities_follow_list_order_witness :
  let text :=
    str "If building type is office then set lighting power density to 1.0" ++ newline ++
    str "If building type is office then set lighting power density to 2.0" in
  let self_rules := (parse_rules_from_text 0 text "lighting").2 in
  ∃ bl, evaluate self_rules office = Ret bl ∧
        baseline_properties bl !! "lighting_power_density" = Some (float_literal "2.0") ∧
        baseline_properties bl = apply_rules (filter (matches office) self_rules) ∅.
Proof.
  cbv zeta.
  destruct (evaluate
              (parse_rules_from_text 0
                 (str "If building type is office then set lighting power density to 1.0"
                  ++ newline ++
                  str "If building type is office then set lighting power density to 2.0")
                 "lighting").2 office) as [bl|e] eqn:Hbl; [|vm_compute in Hbl; discriminate].
  exists bl. split; [done|]. split.
  - vm_compute in Hbl. injection Hbl as <-. vm_compute. reflexivity.
  - eapply (equal_priorities_follow_list_order _ 0 office bl); [|exact Hbl].
    vm_compute. repeat constructor.
Defined.

End ParserEngine.
